(** * gocyclolib: cyclomatic complexity of Go functions

    A shallow embedding of [gocyclolib.go] and of the parts of the Go
    standard library it calls ([go/ast], [go/token], [strings], [strconv],
    [path/filepath], [sort]), followed by the properties of the program.

    Conventions.
    - Go's [int] is a two's complement integer of 64 bits (as on the 64-bit
      platforms): a [Z] kept in range by [int.wrap].
    - A slice [[]stat] is a [list stat].  The program only ever grows a slice
      from [nil] with [append], so a slice is [nil] exactly when it is empty:
      [s == nil] is [s = []].
    - Functions that touch the outside world (file system, parser) or the
      package-level variables run in the monad [M], which threads the
      process state and can stop the process ([log.Fatal]). *)

From Stdlib Require Import ZArith List String Ascii Bool Lia Permutation.
From Stdlib Require Import SpecFloat DecimalString DecimalZ.
Import ListNotations.
Local Open Scope Z_scope.

(** Induction over trees goes through the lists, options and pairs that
    hold their children. *)
Scheme All for list.
Scheme All for option.
Scheme All for prod.

(** ** Go's [int] *)

Module int.

Definition size : Z := 64.
Definition MaxInt : Z := 2 ^ (size - 1) - 1.
Definition MinInt : Z := - 2 ^ (size - 1).

(** Two's complement wrap-around of an arithmetic result. *)
Definition wrap (z : Z) : Z := (z + 2 ^ (size - 1)) mod 2 ^ size - 2 ^ (size - 1).

Definition add (x y : Z) : Z := wrap (x + y).

Definition InRange (z : Z) : Prop := MinInt <= z <= MaxInt.

End int.

(** ** [strconv] *)

Module strconv.

(** [strconv.Itoa(i)], which is also what the verb [%d] of [fmt] prints for
    an [int]: the decimal digits of [i], behind a [-] when [i] is negative. *)
Definition Itoa (i : Z) : string := NilEmpty.string_of_int (Z.to_int i).

End strconv.

(** ** [go/token] *)

Module token.

(** The operator tokens a [BinaryExpr], [UnaryExpr] or statement can carry. *)
Inductive Token : Type :=
| ILLEGAL
| ADD | SUB | MUL | QUO | REM
| AND | OR | XOR | SHL | SHR | AND_NOT
| LAND | LOR | ARROW | INC | DEC
| EQL | LSS | GTR | ASSIGN | NOT
| NEQ | LEQ | GEQ | DEFINE
| BREAK | CONTINUE | GOTO | FALLTHROUGH
| IMPORT | CONST | TYPE | VAR
| INT | FLOAT | IMAG | CHAR | STRING.

Definition Token_eqb (a b : Token) : bool :=
  match a, b with
  | ILLEGAL, ILLEGAL | ADD, ADD | SUB, SUB | MUL, MUL | QUO, QUO | REM, REM
  | AND, AND | OR, OR | XOR, XOR | SHL, SHL | SHR, SHR | AND_NOT, AND_NOT
  | LAND, LAND | LOR, LOR | ARROW, ARROW | INC, INC | DEC, DEC
  | EQL, EQL | LSS, LSS | GTR, GTR | ASSIGN, ASSIGN | NOT, NOT
  | NEQ, NEQ | LEQ, LEQ | GEQ, GEQ | DEFINE, DEFINE
  | BREAK, BREAK | CONTINUE, CONTINUE | GOTO, GOTO | FALLTHROUGH, FALLTHROUGH
  | IMPORT, IMPORT | CONST, CONST | TYPE, TYPE | VAR, VAR
  | INT, INT | FLOAT, FLOAT | IMAG, IMAG | CHAR, CHAR | STRING, STRING => true
  | _, _ => false
  end.

(** A compact position inside a file set, and its expanded form. *)
Definition Pos : Type := Z.

Record Position : Type := mkPosition {
  Filename : string;
  Offset : Z;
  Line : Z;
  Column : Z
}.

(** A file set resolves compact positions. *)
Record FileSet : Type := mkFileSet { Position_of : Pos -> Position }.

(** [pos.IsValid()]: [pos.Line > 0] *)
Definition Position_IsValid (pos : Position) : bool := 0 <? Line pos.

(** [pos.String()]: [file:line:column], without the parts that are not
    known, and [-] when none is. *)
Definition Position_String (pos : Position) : string :=
  let s := Filename pos in
  let s :=
    if Position_IsValid pos then
      let s := if negb (String.eqb s EmptyString) then (s ++ ":")%string else s in
      let s := (s ++ strconv.Itoa (Line pos))%string in
      if negb (Column pos =? 0)
      then (s ++ ":" ++ strconv.Itoa (Column pos))%string
      else s
    else s in
  if String.eqb s EmptyString then "-"%string else s.

End token.

(** ** [go/ast]

    One constructor per concrete node type of [go/ast] (as of the Go
    releases the program was written for, before type parameters), with the
    fields that hold child nodes and the tokens that tell node kinds apart;
    a field that may be [nil] is an [option].  Source positions are kept
    only where the program reads them ([FuncType.Func], through
    [FuncDecl.Pos]).  A field of a concrete pointer type that the program
    never selects from ([GoStmt.Call], a [*CallExpr]) has its interface
    type here. *)

Module ast.

Record Comment : Type := mkComment { Text : string }.

Record CommentGroup : Type := mkCommentGroup { Comments : list Comment }.

Record Ident : Type := mkIdent { Name : string }.

Record BasicLit : Type := mkBasicLit { Kind : token.Token; Value : string }.

Inductive Expr : Type :=
| BadExpr
| Expr_Ident (id : Ident)
| Ellipsis (Elt : option Expr)
| Expr_BasicLit (lit : BasicLit)
| FuncLit (Type_ : FuncType) (Body : BlockStmt)
| CompositeLit (Type_ : option Expr) (Elts : list Expr)
| ParenExpr (X : Expr)
| SelectorExpr (X : Expr) (Sel : Ident)
| IndexExpr (X : Expr) (Index : Expr)
| SliceExpr (X : Expr) (Low High Max : option Expr)
| TypeAssertExpr (X : Expr) (Type_ : option Expr)
| CallExpr (Fun : Expr) (Args : list Expr)
| StarExpr (X : Expr)
| UnaryExpr (Op : token.Token) (X : Expr)
| BinaryExpr (X : Expr) (Op : token.Token) (Y : Expr)
| KeyValueExpr (Key : Expr) (Value : Expr)
| ArrayType (Len : option Expr) (Elt : Expr)
| StructType (Fields : FieldList)
| Expr_FuncType (t : FuncType)
| InterfaceType (Methods : FieldList)
| MapType (Key : Expr) (Value : Expr)
| ChanType (Value : Expr)

with Stmt : Type :=
| BadStmt
| DeclStmt (Decl : GenDecl)
| EmptyStmt
| LabeledStmt (Label : Ident) (Stmt_ : Stmt)
| ExprStmt (X : Expr)
| SendStmt (Chan : Expr) (Value : Expr)
| IncDecStmt (X : Expr) (Tok : token.Token)
| AssignStmt (Lhs : list Expr) (Tok : token.Token) (Rhs : list Expr)
| GoStmt (Call : Expr)
| DeferStmt (Call : Expr)
| ReturnStmt (Results : list Expr)
| BranchStmt (Tok : token.Token) (Label : option Ident)
| Stmt_Block (b : BlockStmt)
| IfStmt (Init : option Stmt) (Cond : Expr) (Body : BlockStmt) (Else : option Stmt)
| CaseClause (List_ : list Expr) (Body : list Stmt)
| SwitchStmt (Init : option Stmt) (Tag : option Expr) (Body : BlockStmt)
| TypeSwitchStmt (Init : option Stmt) (Assign : Stmt) (Body : BlockStmt)
| CommClause (Comm : option Stmt) (Body : list Stmt)
| SelectStmt (Body : BlockStmt)
| ForStmt (Init : option Stmt) (Cond : option Expr) (Post : option Stmt) (Body : BlockStmt)
| RangeStmt (Key Value : option Expr) (Tok : token.Token) (X : Expr) (Body : BlockStmt)

with BlockStmt : Type :=
| mkBlockStmt (List_ : list Stmt)

with FuncType : Type :=
| mkFuncType (Func : token.Pos) (Params : option FieldList) (Results : option FieldList)

with FieldList : Type :=
| mkFieldList (List_ : list Field)

with Field : Type :=
| mkField (Doc : option CommentGroup) (Names : list Ident) (Type_ : Expr)
          (Tag : option BasicLit) (Comment_ : option CommentGroup)

with Spec : Type :=
| ImportSpec (Doc : option CommentGroup) (Name_ : option Ident) (Path : BasicLit)
             (Comment_ : option CommentGroup)
| ValueSpec (Doc : option CommentGroup) (Names : list Ident) (Type_ : option Expr)
            (Values : list Expr) (Comment_ : option CommentGroup)
| TypeSpec (Doc : option CommentGroup) (Name_ : Ident) (Type_ : Expr)
           (Comment_ : option CommentGroup)

with GenDecl : Type :=
| mkGenDecl (Doc : option CommentGroup) (Tok : token.Token) (Specs : list Spec).

Scheme Expr_mut := Induction for Expr Sort Prop
  with Stmt_mut := Induction for Stmt Sort Prop
  with BlockStmt_mut := Induction for BlockStmt Sort Prop
  with FuncType_mut := Induction for FuncType Sort Prop
  with FieldList_mut := Induction for FieldList Sort Prop
  with Field_mut := Induction for Field Sort Prop
  with Spec_mut := Induction for Spec Sort Prop
  with GenDecl_mut := Induction for GenDecl Sort Prop.

Combined Scheme node_mutind from Expr_mut, Stmt_mut, BlockStmt_mut, FuncType_mut,
  FieldList_mut, Field_mut, Spec_mut, GenDecl_mut.

(** Field selectors the program uses. *)
Definition FieldList_List (l : FieldList) : list Field :=
  match l with mkFieldList fs => fs end.

Definition Field_Names (f : Field) : list Ident :=
  match f with mkField _ names _ _ _ => names end.

Definition Field_Type (f : Field) : Expr :=
  match f with mkField _ _ t _ _ => t end.

Definition FuncType_Func (t : FuncType) : token.Pos :=
  match t with mkFuncType p _ _ => p end.

(** [FuncDecl] is never a child of a statement: the [Decl] of a [DeclStmt]
    is a [*GenDecl].  It sits above the recursive node types. *)
Record FuncDecl : Type := mkFuncDecl {
  Doc : option CommentGroup;
  Recv : option FieldList;
  Name_ : Ident;
  Type_ : FuncType;
  Body : option BlockStmt
}.

Inductive Decl : Type :=
| BadDecl
| Decl_Gen (d : GenDecl)
| Decl_Func (d : FuncDecl).

Record File : Type := mkFile {
  File_Doc : option CommentGroup;
  File_Name : Ident;
  Decls : list Decl
}.

(** The interface [ast.Node]: a value of any concrete node type. *)
Inductive Node : Type :=
| Node_Comment (c : Comment)
| Node_CommentGroup (g : CommentGroup)
| Node_Field (f : Field)
| Node_FieldList (l : FieldList)
| Node_Expr (e : Expr)
| Node_Stmt (s : Stmt)
| Node_Spec (s : Spec)
| Node_Decl (d : Decl)
| Node_File (f : File).

(** The children of a node: the nodes its fields hold, in the order of the
    fields. *)
Definition of_option {A : Type} (node : A -> Node) (o : option A) : list Node :=
  match o with
  | Some a => [node a]
  | None => []
  end.

Definition of_Ident (id : Ident) : Node := Node_Expr (Expr_Ident id).
Definition of_BasicLit (lit : BasicLit) : Node := Node_Expr (Expr_BasicLit lit).
Definition of_BlockStmt (b : BlockStmt) : Node := Node_Stmt (Stmt_Block b).
Definition of_FuncType (t : FuncType) : Node := Node_Expr (Expr_FuncType t).
Definition of_GenDecl (d : GenDecl) : Node := Node_Decl (Decl_Gen d).

Definition Expr_children (n : Expr) : list Node :=
  match n with
  | BadExpr | Expr_Ident _ | Expr_BasicLit _ => []
  | Ellipsis Elt => of_option Node_Expr Elt
  | FuncLit Type_ Body => [of_FuncType Type_; of_BlockStmt Body]
  | CompositeLit Type_ Elts => of_option Node_Expr Type_ ++ map Node_Expr Elts
  | ParenExpr X => [Node_Expr X]
  | SelectorExpr X Sel => [Node_Expr X; of_Ident Sel]
  | IndexExpr X Index => [Node_Expr X; Node_Expr Index]
  | SliceExpr X Low High Max =>
      [Node_Expr X] ++ of_option Node_Expr Low ++ of_option Node_Expr High
      ++ of_option Node_Expr Max
  | TypeAssertExpr X Type_ => [Node_Expr X] ++ of_option Node_Expr Type_
  | CallExpr Fun Args => [Node_Expr Fun] ++ map Node_Expr Args
  | StarExpr X => [Node_Expr X]
  | UnaryExpr _ X => [Node_Expr X]
  | BinaryExpr X _ Y => [Node_Expr X; Node_Expr Y]
  | KeyValueExpr Key Value => [Node_Expr Key; Node_Expr Value]
  | ArrayType Len Elt => of_option Node_Expr Len ++ [Node_Expr Elt]
  | StructType Fields => [Node_FieldList Fields]
  | Expr_FuncType (mkFuncType _ Params Results) =>
      of_option Node_FieldList Params ++ of_option Node_FieldList Results
  | InterfaceType Methods => [Node_FieldList Methods]
  | MapType Key Value => [Node_Expr Key; Node_Expr Value]
  | ChanType Value => [Node_Expr Value]
  end.

Definition Stmt_children (n : Stmt) : list Node :=
  match n with
  | BadStmt | EmptyStmt => []
  | DeclStmt Decl => [of_GenDecl Decl]
  | LabeledStmt Label Stmt_ => [of_Ident Label; Node_Stmt Stmt_]
  | ExprStmt X => [Node_Expr X]
  | SendStmt Chan Value => [Node_Expr Chan; Node_Expr Value]
  | IncDecStmt X _ => [Node_Expr X]
  | AssignStmt Lhs _ Rhs => map Node_Expr Lhs ++ map Node_Expr Rhs
  | GoStmt Call => [Node_Expr Call]
  | DeferStmt Call => [Node_Expr Call]
  | ReturnStmt Results => map Node_Expr Results
  | BranchStmt _ Label => of_option of_Ident Label
  | Stmt_Block (mkBlockStmt List_) => map Node_Stmt List_
  | IfStmt Init Cond Body Else =>
      of_option Node_Stmt Init ++ [Node_Expr Cond; of_BlockStmt Body]
      ++ of_option Node_Stmt Else
  | CaseClause List_ Body => map Node_Expr List_ ++ map Node_Stmt Body
  | SwitchStmt Init Tag Body =>
      of_option Node_Stmt Init ++ of_option Node_Expr Tag ++ [of_BlockStmt Body]
  | TypeSwitchStmt Init Assign Body =>
      of_option Node_Stmt Init ++ [Node_Stmt Assign; of_BlockStmt Body]
  | CommClause Comm Body => of_option Node_Stmt Comm ++ map Node_Stmt Body
  | SelectStmt Body => [of_BlockStmt Body]
  | ForStmt Init Cond Post Body =>
      of_option Node_Stmt Init ++ of_option Node_Expr Cond ++ of_option Node_Stmt Post
      ++ [of_BlockStmt Body]
  | RangeStmt Key Value _ X Body =>
      of_option Node_Expr Key ++ of_option Node_Expr Value
      ++ [Node_Expr X; of_BlockStmt Body]
  end.

Definition Spec_children (n : Spec) : list Node :=
  match n with
  | ImportSpec Doc Name_ Path Comment_ =>
      of_option Node_CommentGroup Doc ++ of_option of_Ident Name_ ++ [of_BasicLit Path]
      ++ of_option Node_CommentGroup Comment_
  | ValueSpec Doc Names Type_ Values Comment_ =>
      of_option Node_CommentGroup Doc ++ map of_Ident Names ++ of_option Node_Expr Type_
      ++ map Node_Expr Values ++ of_option Node_CommentGroup Comment_
  | TypeSpec Doc Name_ Type_ Comment_ =>
      of_option Node_CommentGroup Doc ++ [of_Ident Name_; Node_Expr Type_]
      ++ of_option Node_CommentGroup Comment_
  end.

Definition Decl_children (n : Decl) : list Node :=
  match n with
  | BadDecl => []
  | Decl_Gen (mkGenDecl Doc _ Specs) =>
      of_option Node_CommentGroup Doc ++ map Node_Spec Specs
  | Decl_Func d =>
      of_option Node_CommentGroup (Doc d) ++ of_option Node_FieldList (Recv d)
      ++ [of_Ident (Name_ d); of_FuncType (Type_ d)] ++ of_option of_BlockStmt (Body d)
  end.

Definition children (n : Node) : list Node :=
  match n with
  | Node_Comment _ => []
  | Node_CommentGroup g => map Node_Comment (Comments g)
  | Node_Field (mkField Doc Names Type_ Tag Comment_) =>
      of_option Node_CommentGroup Doc ++ map of_Ident Names ++ [Node_Expr Type_]
      ++ of_option of_BasicLit Tag ++ of_option Node_CommentGroup Comment_
  | Node_FieldList (mkFieldList List_) => map Node_Field List_
  | Node_Expr e => Expr_children e
  | Node_Stmt s => Stmt_children s
  | Node_Spec s => Spec_children s
  | Node_Decl d => Decl_children d
  | Node_File f =>
      of_option Node_CommentGroup (File_Doc f) ++ [of_Ident (File_Name f)]
      ++ map Node_Decl (Decls f)
  end.

(** [FieldList.NumFields]: the number of parameters or struct fields. *)
Definition NumFields (f : option FieldList) : Z :=
  match f with
  | Some l =>
      fold_left
        (fun n g =>
           let m := Z.of_nat (List.length (Field_Names g)) in
           let m := if m =? 0 then 1 else m in
           int.add n m)
        (FieldList_List l) 0
  | None => 0
  end.

(** [FuncDecl.Pos] is the position of the [func] keyword. *)
Definition FuncDecl_Pos (d : FuncDecl) : token.Pos := FuncType_Func (Type_ d).

End ast.

(** ** [ast.Walk]

    [Walk(v, node)] calls [v.Visit(node)], walks the non-nil children of
    [node] in field order with the visitor that call returned, and ends with
    [v.Visit(nil)].  The visitor of this program always returns itself and
    keeps its result in its own field, so a visitor is a state [V] and
    [Visit : V -> option Node -> V] is the state after the call ([None] is
    the [nil] node). *)

Module Walk.
Import ast.

Section Walk.
Context {V : Type}.
Variable Visit : V -> option Node -> V.

(** A node together with the walk of its children. *)
Definition node (n : Node) (children : V -> V) (v : V) : V :=
  Visit (children (Visit v (Some n))) None.

Definition leaf (n : Node) : V -> V := node n (fun v => v).

(** [if n.F != nil { Walk(v, n.F) }] *)
Definition opt {A : Type} (walk : A -> V -> V) (o : option A) (v : V) : V :=
  match o with
  | Some a => walk a v
  | None => v
  end.

(** [for _, x := range list { Walk(v, x) }] *)
Definition each {A : Type} (walk : A -> V -> V) (l : list A) (v : V) : V :=
  fold_left (fun v a => walk a v) l v.

Definition Comment (c : ast.Comment) : V -> V := leaf (Node_Comment c).

Definition CommentGroup (g : ast.CommentGroup) : V -> V :=
  node (Node_CommentGroup g) (each Comment (Comments g)).

Definition Ident (id : ast.Ident) : V -> V := leaf (Node_Expr (Expr_Ident id)).

Definition BasicLit (lit : ast.BasicLit) : V -> V := leaf (Node_Expr (Expr_BasicLit lit)).

Fixpoint Expr (n : ast.Expr) (v : V) {struct n} : V :=
  match n with
  | Expr_FuncType t => FuncType t v
  | _ =>
    node (Node_Expr n)
      (fun v =>
         match n with
         | BadExpr | Expr_Ident _ | Expr_BasicLit _ => v
         | Ellipsis Elt => opt Expr Elt v
         | FuncLit Type_ Body => BlockStmt Body (FuncType Type_ v)
         | CompositeLit Type_ Elts => each Expr Elts (opt Expr Type_ v)
         | ParenExpr X => Expr X v
         | SelectorExpr X Sel => Ident Sel (Expr X v)
         | IndexExpr X Index => Expr Index (Expr X v)
         | SliceExpr X Low High Max =>
             opt Expr Max (opt Expr High (opt Expr Low (Expr X v)))
         | TypeAssertExpr X Type_ => opt Expr Type_ (Expr X v)
         | CallExpr Fun Args => each Expr Args (Expr Fun v)
         | StarExpr X => Expr X v
         | UnaryExpr _ X => Expr X v
         | BinaryExpr X _ Y => Expr Y (Expr X v)
         | KeyValueExpr Key Value => Expr Value (Expr Key v)
         | ArrayType Len Elt => Expr Elt (opt Expr Len v)
         | StructType Fields => FieldList Fields v
         | Expr_FuncType _ => v
         | InterfaceType Methods => FieldList Methods v
         | MapType Key Value => Expr Value (Expr Key v)
         | ChanType Value => Expr Value v
         end) v
  end

with Stmt (n : ast.Stmt) (v : V) {struct n} : V :=
  match n with
  | Stmt_Block b => BlockStmt b v
  | _ =>
    node (Node_Stmt n)
      (fun v =>
         match n with
         | BadStmt | EmptyStmt => v
         | DeclStmt Decl => GenDecl Decl v
         | LabeledStmt Label Stmt_ => Stmt Stmt_ (Ident Label v)
         | ExprStmt X => Expr X v
         | SendStmt Chan Value => Expr Value (Expr Chan v)
         | IncDecStmt X _ => Expr X v
         | AssignStmt Lhs _ Rhs => each Expr Rhs (each Expr Lhs v)
         | GoStmt Call => Expr Call v
         | DeferStmt Call => Expr Call v
         | ReturnStmt Results => each Expr Results v
         | BranchStmt _ Label => opt Ident Label v
         | Stmt_Block _ => v
         | IfStmt Init Cond Body Else =>
             opt Stmt Else (BlockStmt Body (Expr Cond (opt Stmt Init v)))
         | CaseClause List_ Body => each Stmt Body (each Expr List_ v)
         | SwitchStmt Init Tag Body =>
             BlockStmt Body (opt Expr Tag (opt Stmt Init v))
         | TypeSwitchStmt Init Assign Body =>
             BlockStmt Body (Stmt Assign (opt Stmt Init v))
         | CommClause Comm Body => each Stmt Body (opt Stmt Comm v)
         | SelectStmt Body => BlockStmt Body v
         | ForStmt Init Cond Post Body =>
             BlockStmt Body (opt Stmt Post (opt Expr Cond (opt Stmt Init v)))
         | RangeStmt Key Value _ X Body =>
             BlockStmt Body (Expr X (opt Expr Value (opt Expr Key v)))
         end) v
  end

with BlockStmt (n : ast.BlockStmt) (v : V) {struct n} : V :=
  match n with
  | mkBlockStmt List_ => node (Node_Stmt (Stmt_Block n)) (each Stmt List_) v
  end

with FuncType (n : ast.FuncType) (v : V) {struct n} : V :=
  match n with
  | mkFuncType _ Params Results =>
      node (Node_Expr (Expr_FuncType n))
        (fun v => opt FieldList Results (opt FieldList Params v)) v
  end

with FieldList (n : ast.FieldList) (v : V) {struct n} : V :=
  match n with
  | mkFieldList List_ => node (Node_FieldList n) (each Field List_) v
  end

with Field (n : ast.Field) (v : V) {struct n} : V :=
  match n with
  | mkField Doc Names Type_ Tag Comment_ =>
      node (Node_Field n)
        (fun v =>
           opt CommentGroup Comment_
             (opt BasicLit Tag (Expr Type_ (each Ident Names (opt CommentGroup Doc v)))))
        v
  end

with Spec (n : ast.Spec) (v : V) {struct n} : V :=
  node (Node_Spec n)
    (fun v =>
       match n with
       | ImportSpec Doc Name_ Path Comment_ =>
           opt CommentGroup Comment_
             (BasicLit Path (opt Ident Name_ (opt CommentGroup Doc v)))
       | ValueSpec Doc Names Type_ Values Comment_ =>
           opt CommentGroup Comment_
             (each Expr Values
                (opt Expr Type_ (each Ident Names (opt CommentGroup Doc v))))
       | TypeSpec Doc Name_ Type_ Comment_ =>
           opt CommentGroup Comment_
             (Expr Type_ (Ident Name_ (opt CommentGroup Doc v)))
       end) v

with GenDecl (n : ast.GenDecl) (v : V) {struct n} : V :=
  match n with
  | mkGenDecl Doc _ Specs =>
      node (Node_Decl (Decl_Gen n))
        (fun v => each Spec Specs (opt CommentGroup Doc v)) v
  end.

Definition FuncDecl (n : ast.FuncDecl) : V -> V :=
  node (Node_Decl (Decl_Func n))
    (fun v =>
       opt BlockStmt (ast.Body n)
         (FuncType (ast.Type_ n)
            (Ident (ast.Name_ n)
               (opt FieldList (ast.Recv n) (opt CommentGroup (ast.Doc n) v))))).

Definition Decl (n : ast.Decl) : V -> V :=
  match n with
  | BadDecl => leaf (Node_Decl n)
  | Decl_Gen d => GenDecl d
  | Decl_Func d => FuncDecl d
  end.

(** The comments of a file are not walked: they belong to other nodes. *)
Definition File (n : ast.File) : V -> V :=
  node (Node_File n)
    (fun v => each Decl (Decls n) (Ident (File_Name n) (opt CommentGroup (File_Doc n) v))).

(** [Walk(v, node)] on the interface type: the type switch on [node]. *)
Definition Walk (n : ast.Node) : V -> V :=
  match n with
  | Node_Comment c => Comment c
  | Node_CommentGroup g => CommentGroup g
  | Node_Field f => Field f
  | Node_FieldList l => FieldList l
  | Node_Expr e => Expr e
  | Node_Stmt s => Stmt s
  | Node_Spec s => Spec s
  | Node_Decl d => Decl d
  | Node_File f => File f
  end.

End Walk.

End Walk.

(** ** [strings] *)

Module strings.

(** [len(s) >= len(prefix) && s[0:len(prefix)] == prefix] *)
Definition HasPrefix (s prefix : string) : bool :=
  (String.length prefix <=? String.length s)%nat
  && String.eqb (String.substring 0 (String.length prefix) s) prefix.

(** [len(s) >= len(suffix) && s[len(s)-len(suffix):] == suffix] *)
Definition HasSuffix (s suffix : string) : bool :=
  (String.length suffix <=? String.length s)%nat
  && String.eqb
       (String.substring (String.length s - String.length suffix) (String.length suffix) s)
       suffix.

(** The elements, with [sep] between each two. *)
Fixpoint Join (elems : list string) (sep : string) : string :=
  match elems with
  | [] => EmptyString
  | [a] => a
  | a :: rest => (a ++ sep ++ Join rest sep)%string
  end.

End strings.

(** ** [os] *)

Module os.

(** The separator of a Unix build. *)
Definition PathSeparator : ascii := "/"%char.

(** Of a [FileInfo] the program reads [IsDir] only. *)
Record FileInfo : Type := mkFileInfo { IsDir : bool }.

End os.

(** ** The program's data *)

Record stat : Type := mkstat {
  PkgName : string;
  FuncName : string;
  Complexity : Z;
  Pos : token.Position
}.

(** The method [String] of [stat]:
    [fmt.Sprintf("%d %s %s %s", s.Complexity, s.PkgName, s.FuncName, s.Pos)];
    [%s] prints the position with its own [String] method. *)
Definition stat_String (s : stat) : string :=
  (strconv.Itoa (Complexity s) ++ " " ++ PkgName s ++ " " ++ FuncName s ++ " "
   ++ token.Position_String (Pos s))%string.

(** ** The Scorer *)

Module complexityVisitor.
Import ast token.

Record t : Type := mk {
  (* Complexity is the cyclomatic complexity *)
  Complexity : Z
}.

(** [v.Complexity++] *)
Definition incr (v : t) : t := mk (int.add (Complexity v) 1).

(** Visit implements the ast.Visitor interface.  The visitor it returns is
    [v] itself: the result is the state of [v] after the call. *)
Definition Visit (v : t) (n : option Node) : t :=
  match n with
  | Some (Node_Decl (Decl_Func _))
  | Some (Node_Stmt (IfStmt _ _ _ _))
  | Some (Node_Stmt (ForStmt _ _ _ _))
  | Some (Node_Stmt (RangeStmt _ _ _ _ _))
  | Some (Node_Stmt (CaseClause _ _))
  | Some (Node_Stmt (CommClause _ _)) => incr v
  | Some (Node_Expr (BinaryExpr _ Op _)) =>
      if Token_eqb Op LAND || Token_eqb Op LOR then incr v else v
  | _ => v
  end.

End complexityVisitor.

(** complexity calculates the cyclomatic complexity of a function. *)
Definition complexity (fn : ast.FuncDecl) : Z :=
  let v := complexityVisitor.mk 0 in
  let v := Walk.Walk complexityVisitor.Visit (ast.Node_Decl (ast.Decl_Func fn)) v in
  complexityVisitor.Complexity v.

(** ** The Unit Extractor *)

(** recvString returns a string representation of recv of the form "T", "*T",
    or "BADRECV" (if not a proper receiver type). *)
Fixpoint recvString (recv : ast.Expr) : string :=
  match recv with
  | ast.Expr_Ident t => ast.Name t
  | ast.StarExpr X => ("*" ++ recvString X)%string
  | _ => "BADRECV"%string
  end.

(** funcName returns the name representation of a function or method:
    "(Type).Name" for methods or simply "Name" for functions.
    [fmt.Sprintf] prints the identifier [fn.Name] with its [String] method,
    which gives its [Name]. *)
Definition funcName (fn : ast.FuncDecl) : string :=
  match ast.Recv fn with
  | Some recv =>
      if 0 <? ast.NumFields (Some recv) then
        match ast.FieldList_List recv with
        | f :: _ =>
            let typ := ast.Field_Type f in
            ("(" ++ recvString typ ++ ")." ++ ast.Name (ast.Name_ fn))%string
        | [] => ast.Name (ast.Name_ fn) (* not reached: NumFields is 0 *)
        end
      else ast.Name (ast.Name_ fn)
  | None => ast.Name (ast.Name_ fn)
  end.

Definition buildStats (f : ast.File) (fset : token.FileSet) (stats : list stat)
  : list stat :=
  fold_left
    (fun stats decl =>
       match decl with
       | ast.Decl_Func fn =>
           stats ++ [ {| PkgName := ast.Name (ast.File_Name f);
                         FuncName := funcName fn;
                         Complexity := complexity fn;
                         Pos := token.Position_of fset (ast.FuncDecl_Pos fn) |} ]
       | _ => stats
       end)
    (ast.Decls f) stats.

(** ** The average *)

(** [float64]: IEEE 754 binary64. *)
Module float64.

Definition t : Type := spec_float.
Definition prec : Z := 53.
Definition emax : Z := 1024.

(** The conversion [float64(i)] of an [int]: the nearest float, ties to even. *)
Definition of_int (i : Z) : t := binary_normalize prec emax i 0 false.

Definition div (x y : t) : t := SFdiv prec emax x y.

Definition NaN : t := S754_nan.

End float64.

(** [len(s)], [s == nil] and [s[i] = x] on a slice. *)
Definition len {A : Type} (s : list A) : Z := Z.of_nat (List.length s).

Definition is_nil {A : Type} (s : list A) : bool :=
  match s with
  | [] => true
  | _ :: _ => false
  end.

Fixpoint update {A : Type} (s : list A) (i : nat) (x : A) : list A :=
  match s, i with
  | [], _ => []
  | _ :: s', O => x :: s'
  | y :: s', S i' => y :: update s' i' x
  end.

Definition average (stats : list stat) : float64.t :=
  let total := fold_left (fun total s => int.add total (Complexity s)) stats 0 in
  float64.div (float64.of_int total) (float64.of_int (len stats)).

(** ** The process and the world around it *)

(** Go's [error] values the program meets: the sentinel [filepath.SkipDir],
    and errors of the operating system or the parser, which carry a message. *)
Inductive error : Type :=
| SkipDir
| Err (msg : string).

Definition is_SkipDir (e : error) : bool :=
  match e with
  | SkipDir => true
  | Err _ => false
  end.

(** What [os.Lstat] and [readDirNames] find below a path: the file tree as
    [filepath.Walk] meets it.  The names of a directory come sorted. *)
Inductive FileTree : Type :=
| NoLstat (msg : string)                        (* os.Lstat fails *)
| File                                          (* not a directory *)
| DirUnreadable (msg : string)                  (* readDirNames fails *)
| Dir (names : list (string * FileTree)).

(** The calls that leave the program, as the process log records them. *)
Inductive Call : Type :=
| os_Stat (name : string)
| os_Lstat (name : string) (err : option string)
| readDirNames (dirname : string) (err : option string)
| parser_ParseFile (filename : string) (err : option string).

(** Everything the program takes as given: the file system, the parser, and
    two library routines whose result alone matters here. *)
Record World : Type := mkWorld {
  (* os.Stat: [None] when it returns an error *)
  Stat : string -> option os.FileInfo;
  (* the file tree filepath.Walk finds at a root *)
  Tree : string -> FileTree;
  (* parser.ParseFile(fset, filename, nil, 0): an error message, or the file
     and the file set that resolves its positions *)
  ParseFile : string -> string + (ast.File * token.FileSet);
  (* filepath.Join(dir, name): the cleaned path of an entry of dir *)
  Join : string -> string -> string;
  (* what sort.Sort(byComplexity(s)) leaves in s *)
  sort_Sort : list stat -> list stat
}.

(** The package-level variables, and the log of the calls made so far
    (oldest first). *)
Record Process : Type := mkProcess {
  skipGodepsGlobal : bool;
  skipVendorGlobal : bool;
  statsGlobal : list stat;
  calls : list Call
}.

(** The state of a fresh process: the initial values of the variables. *)
Definition start : Process :=
  {| skipGodepsGlobal := false; skipVendorGlobal := false; statsGlobal := [];
     calls := [] |}.

(** A computation returns, or stops the process ([log.Fatal] prints the
    error and calls [os.Exit(1)]; a run-time panic stops it too). *)
Inductive Outcome (A : Type) : Type :=
| Return (a : A) (p : Process)
| Exit (msg : string) (p : Process).

Arguments Return {A} a p.
Arguments Exit {A} msg p.

Definition M (A : Type) : Type := Process -> Outcome A.

Definition ret {A : Type} (a : A) : M A := fun p => Return a p.

Definition bind {A B : Type} (m : M A) (k : A -> M B) : M B :=
  fun p =>
    match m p with
    | Return a p' => k a p'
    | Exit msg p' => Exit msg p'
    end.

Declare Scope go_scope.
Delimit Scope go_scope with go.
Notation "x <- m ;; k" := (bind m (fun x => k))
  (at level 61, m at next level, right associativity) : go_scope.
Notation "' pat <- m ;; k" := (bind m (fun x => match x with pat => k end))
  (at level 61, pat pattern, m at next level, right associativity) : go_scope.
Notation "m ;; k" := (bind m (fun _ => k))
  (at level 61, right associativity) : go_scope.
Local Open Scope go_scope.

(** Reading and writing the package-level variables. *)
Definition load {A : Type} (var : Process -> A) : M A := fun p => Return (var p) p.

Definition set_skipGodepsGlobal (b : bool) (p : Process) : Process :=
  {| skipGodepsGlobal := b; skipVendorGlobal := skipVendorGlobal p;
     statsGlobal := statsGlobal p; calls := calls p |}.

Definition set_skipVendorGlobal (b : bool) (p : Process) : Process :=
  {| skipGodepsGlobal := skipGodepsGlobal p; skipVendorGlobal := b;
     statsGlobal := statsGlobal p; calls := calls p |}.

Definition set_statsGlobal (s : list stat) (p : Process) : Process :=
  {| skipGodepsGlobal := skipGodepsGlobal p; skipVendorGlobal := skipVendorGlobal p;
     statsGlobal := s; calls := calls p |}.

Definition store_skipGodepsGlobal (b : bool) : M unit :=
  fun p => Return tt (set_skipGodepsGlobal b p).

Definition store_skipVendorGlobal (b : bool) : M unit :=
  fun p => Return tt (set_skipVendorGlobal b p).

Definition store_statsGlobal (s : list stat) : M unit :=
  fun p => Return tt (set_statsGlobal s p).

(** A call that leaves the program is logged. *)
Definition log (c : Call) (p : Process) : Process :=
  {| skipGodepsGlobal := skipGodepsGlobal p; skipVendorGlobal := skipVendorGlobal p;
     statsGlobal := statsGlobal p; calls := calls p ++ [c] |}.

Definition call (c : Call) : M unit := fun p => Return tt (log c p).

(** [log.Fatal(err)] *)
Definition log_Fatal {A : Type} (msg : string) : M A := fun p => Exit msg p.

(** ** [path/filepath]

    [filepath.Walk(root, walkFn)], with the variables the closure [walkFn]
    captures passed in and out of each call as a value of type [L].  [visit]
    is the work done for one path: [os.Lstat], then [walkFn] alone when that
    fails, else the function [walk] of the library.  The error [walkFn]
    returns decides whether the walk goes on. *)

Module filepath.

Section Walk.
Context {L : Type}.
Variable w : World.
Variable walkFn :
  string -> option os.FileInfo -> option error -> L -> M (L * option error).

(** Does the loop over the entries of a directory return with the error
    that visiting the entry [child] gave? *)
Definition stops (child : FileTree) (err : option error) : bool :=
  match err with
  | None => false
  | Some e =>
      match child with
      | File => true                       (* !fileInfo.IsDir() || err != SkipDir *)
      | _ => negb (is_SkipDir e)
      end
  end.

(** [for _, name := range names { ... }], with [visit] for the work on one
    entry. *)
Definition entries (visit : FileTree -> string -> L -> M (L * option error))
    (path : string) : list (string * FileTree) -> L -> M (L * option error) :=
  fix loop (names : list (string * FileTree)) (l : L) : M (L * option error) :=
    match names with
    | [] => ret (l, None)
    | (name, child) :: names' =>
        let filename := Join w path name in
        ' (l, err) <- visit child filename l ;;
        if stops child err then ret (l, err) else loop names' l
    end.

Fixpoint visit (t : FileTree) (path : string) (l : L) {struct t}
  : M (L * option error) :=
  match t with
  | NoLstat msg =>
      call (os_Lstat path (Some msg)) ;;
      walkFn path None (Some (Err msg)) l
  | File =>
      call (os_Lstat path None) ;;
      walkFn path (Some (os.mkFileInfo false)) None l
  | DirUnreadable msg =>
      call (os_Lstat path None) ;;
      call (readDirNames path (Some msg)) ;;
      walkFn path (Some (os.mkFileInfo true)) (Some (Err msg)) l
  | Dir names =>
      call (os_Lstat path None) ;;
      call (readDirNames path None) ;;
      ' (l, err1) <- walkFn path (Some (os.mkFileInfo true)) None l ;;
      match err1 with
      | Some _ => ret (l, err1)
      | None => entries visit path names l
      end
  end.

Definition Walk (root : string) (l : L) : M (L * option error) :=
  ' (l, err) <- visit (Tree w root) root l ;;
  match err with
  | Some SkipDir => ret (l, None)
  | _ => ret (l, err)
  end.

End Walk.

End filepath.

(** ** The Path Walker, the Exclusion Policy and the Aggregator *)

Definition isDir (w : World) (filename : string) : M bool :=
  call (os_Stat filename) ;;
  match Stat w filename with
  | Some fi => ret (os.IsDir fi)       (* err == nil && fi.IsDir() *)
  | None => ret false
  end.

Definition analyzeFile (w : World) (fname : string) (stats : list stat) : M (list stat) :=
  match ParseFile w fname with
  | inl err =>
      call (parser_ParseFile fname (Some err)) ;;
      log_Fatal err
  | inr (f, fset) =>
      call (parser_ParseFile fname None) ;;
      ret (buildStats f fset stats)
  end.

(** The source reads the flag as [*skipGodepsGlobal]; the variable is a
    [bool], and its value is what is read here. *)
Definition isAnalyzeTargetGodeps (dirname path : string) : M bool :=
  let prefix := strings.Join [dirname; "Godeps"%string] (String os.PathSeparator EmptyString) in
  let prefix := if String.eqb dirname "." then "Godeps"%string else prefix in
  skip <- load skipGodepsGlobal ;;
  if strings.HasPrefix path prefix && skip then ret false
  else ret (strings.HasSuffix path ".go").

Definition isAnalyzeTargetVendor (dirname path : string) : M bool :=
  let prefix := strings.Join [dirname; "vendor"%string] (String os.PathSeparator EmptyString) in
  let prefix := if String.eqb dirname "." then "vendor"%string else prefix in
  skip <- load skipVendorGlobal ;;
  if strings.HasPrefix path prefix && skip then ret false
  else ret (strings.HasSuffix path ".go").

(** The closure [analyzeDir] hands to [filepath.Walk]; it captures
    [dirname] and the variable [stats].  [info] is [nil] only together with
    an error, so [info.IsDir()] is not reached on a [nil] pointer by
    [filepath.Walk]; reached otherwise, it panics. *)
Definition analyzeDir_walkFn (w : World) (dirname : string)
    (path : string) (info : option os.FileInfo) (err : option error)
    (stats : list stat) : M (list stat * option error) :=
  match err with
  | Some _ => ret (stats, err)
  | None =>
      match info with
      | None => log_Fatal "invalid memory address or nil pointer dereference"
      | Some info =>
          if os.IsDir info then ret (stats, err)
          else
            godeps <- isAnalyzeTargetGodeps dirname path ;;
            if negb godeps then ret (stats, err)
            else
              vendor <- isAnalyzeTargetVendor dirname path ;;
              if negb vendor then ret (stats, err)
              else
                stats <- analyzeFile w path stats ;;
                ret (stats, err)
      end
  end.

(** The error [filepath.Walk] returns is dropped. *)
Definition analyzeDir (w : World) (dirname : string) (stats : list stat) : M (list stat) :=
  ' (stats, _) <- filepath.Walk w (analyzeDir_walkFn w dirname) dirname stats ;;
  ret stats.

(** The loop [for _, path := range paths] of [analyze], from the value
    [stats] has when it reaches [paths]. *)
Fixpoint analyze_range (w : World) (paths : list string) (stats : list stat)
  : M (list stat) :=
  match paths with
  | [] => ret stats
  | path :: paths' =>
      dir <- isDir w path ;;
      stats <- (if dir then analyzeDir w path stats else analyzeFile w path stats) ;;
      analyze_range w paths' stats
  end.

Definition analyze (w : World) (paths : list string) : M (list stat) :=
  analyze_range w paths [].

(** ** [sort]

    [sort.Interface], and the routine [insertionSort(data, a, b)] that
    [sort.Sort] runs on a short slice.  An index out of range panics in Go:
    [Less] and [Swap] give [None] there. *)

Module sort.

Class Interface (T : Type) : Type := {
  Len : T -> Z;
  Less : T -> nat -> nat -> option bool;
  Swap : T -> nat -> nat -> option T
}.

Section insertionSort.
Context {T : Type} `{Interface T}.

(** [for j := i; j > a && data.Less(j, j-1); j-- { data.Swap(j, j-1) }] *)
Fixpoint insert (data : T) (a j : nat) {struct j} : option T :=
  match j with
  | O => Some data
  | S j' =>
      if (a <? j)%nat then
        match Less data j j' with
        | Some true =>
            match Swap data j j' with
            | Some data => insert data a j'
            | None => None
            end
        | Some false => Some data
        | None => None
        end
      else Some data
  end.

(** [for i := a + 1; i < b; i++ { ... }] *)
Definition insertionSort (data : T) (a b : nat) : option T :=
  fold_left
    (fun data i =>
       match data with
       | Some data => insert data a i
       | None => None
       end)
    (seq (a + 1) (b - (a + 1))) (Some data).

End insertionSort.

End sort.

(** The methods of [byComplexity], the [sort.Interface] of a slice of
    [stat]. *)
Module byComplexity.

Definition t : Type := list stat.

Definition Len (s : t) : Z := len s.

(** [s[i], s[j] = s[j], s[i]] *)
Definition Swap (s : t) (i j : nat) : option t :=
  match nth_error s i, nth_error s j with
  | Some si, Some sj => Some (update (update s i sj) j si)
  | _, _ => None
  end.

(** [s[i].Complexity >= s[j].Complexity] *)
Definition Less (s : t) (i j : nat) : option bool :=
  match nth_error s i, nth_error s j with
  | Some si, Some sj => Some (Complexity sj <=? Complexity si)
  | _, _ => None
  end.

End byComplexity.

#[export] Instance byComplexity_Interface : sort.Interface byComplexity.t := {
  sort.Len := byComplexity.Len;
  sort.Less := byComplexity.Less;
  sort.Swap := byComplexity.Swap
}.

Definition getStats (w : World) (paths : list string) (skipGodeps skipVendor : bool)
  : M (list stat) :=
  cached <- load statsGlobal ;;
  godeps <- load skipGodepsGlobal ;;
  vendor <- load skipVendorGlobal ;;
  (if is_nil cached
      || negb (Bool.eqb godeps skipGodeps)
      || negb (Bool.eqb vendor skipVendor)
   then
     store_skipGodepsGlobal skipGodeps ;;
     store_skipVendorGlobal skipVendor ;;
     stats <- analyze w paths ;;
     store_statsGlobal stats
   else ret tt) ;;
  (* sort.Sort(byComplexity(statsGlobal)) sorts the slice in place *)
  stats <- load statsGlobal ;;
  store_statsGlobal (sort_Sort w stats) ;;
  load statsGlobal.

Definition Average (w : World) (paths : list string) (skipGodeps skipVendor : bool)
  : M float64.t :=
  stats <- getStats w paths skipGodeps skipVendor ;;
  ret (average stats).

(** The source declares [GetStats] without a result type; it returns what
    [getStats] returns. *)
Definition GetStats (w : World) (paths : list string) (skipGodeps skipVendor : bool)
  : M (list stat) :=
  getStats w paths skipGodeps skipVendor.

(** ** Reading a run

    The state a computation ends in, the calls that report an error, and
    the Exclusion Policy as a predicate on paths. *)

Definition final {A : Type} (o : Outcome A) : Process :=
  match o with
  | Return _ p => p
  | Exit _ p => p
  end.

(** The package-level variables of [p'] are those of [p]. *)
Definition same_globals (p p' : Process) : Prop :=
  skipGodepsGlobal p' = skipGodepsGlobal p
  /\ skipVendorGlobal p' = skipVendorGlobal p
  /\ statsGlobal p' = statsGlobal p.

(** A file-system error met by [filepath.Walk]. *)
Definition walk_error (c : Call) : option string :=
  match c with
  | os_Lstat _ (Some msg) => Some msg
  | readDirNames _ (Some msg) => Some msg
  | _ => None
  end.

(** A file the parser refused. *)
Definition parse_error (c : Call) : option string :=
  match c with
  | parser_ParseFile _ (Some msg) => Some msg
  | _ => None
  end.

(** The walked root joined with the name of a reserved directory; the bare
    name when the root is the current directory. *)
Definition reserved_prefix (dirname reserved : string) : string :=
  if String.eqb dirname "." then reserved
  else (dirname ++ "/" ++ reserved)%string.

Definition excluded (skipGodeps skipVendor : bool) (dirname path : string) : bool :=
  (skipGodeps && strings.HasPrefix path (reserved_prefix dirname "Godeps"))
  || (skipVendor && strings.HasPrefix path (reserved_prefix dirname "vendor")).

Definition candidate (skipGodeps skipVendor : bool) (dirname path : string) : bool :=
  negb (excluded skipGodeps skipVendor dirname path) && strings.HasSuffix path ".go".

(** What a walk of [dirname] started in [p] with [stats] ends in: the
    variables are untouched; the calls made are logged after those of [p];
    only candidates are parsed; the walk stops at the first error. *)
Definition walk_post (dirname : string) (stats : list stat) (p : Process)
    (o : Outcome (list stat * option error)) : Prop :=
  same_globals p (final o)
  /\ exists evs,
      calls (final o) = calls p ++ evs
      /\ Forall (fun c => forall f r, c = parser_ParseFile f r ->
                   candidate (skipGodepsGlobal p) (skipVendorGlobal p) dirname f = true) evs
      /\ match o with
         | Return (stats', err) _ =>
             (exists new, stats' = stats ++ new)
             /\ Forall (fun c => parse_error c = None) evs
             /\ match err with
                | None => Forall (fun c => walk_error c = None) evs
                | Some e =>
                    exists evs0 c msg,
                      evs = evs0 ++ [c] /\ walk_error c = Some msg /\ e = Err msg
                      /\ Forall (fun c => walk_error c = None) evs0
                end
         | Exit msg _ =>
             exists evs0 f,
               evs = evs0 ++ [parser_ParseFile f (Some msg)]
               /\ Forall (fun c => walk_error c = None) evs0
               /\ Forall (fun c => parse_error c = None) evs0
         end.

(** A run of [getStats] that does not use the cache: the flags are
    stored, every root is analysed from an empty result, and the result is
    stored and sorted. *)
Definition rebuild (w : World) (paths : list string) (skipGodeps skipVendor : bool)
    (p : Process) : Outcome (list stat) :=
  match analyze w paths (set_skipVendorGlobal skipVendor (set_skipGodepsGlobal skipGodeps p)) with
  | Return stats p' =>
      Return (sort_Sort w stats) (set_statsGlobal (sort_Sort w stats) p')
  | Exit msg p' => Exit msg p'
  end.

(** The paths of the files below [path] in the tree [t], in the order the
    walk meets them when nothing fails: the entries of a directory one after
    the other, each with all that is below it. *)
Fixpoint files (w : World) (t : FileTree) (path : string) : list string :=
  match t with
  | File => [path]
  | Dir names =>
      flat_map
        (fun entry : string * FileTree =>
           let (name, child) := entry in files w child (Join w path name))
        names
  | _ => []
  end.

(** No [os.Lstat] and no [readDirNames] fails in the tree. *)
Fixpoint readable (t : FileTree) : bool :=
  match t with
  | File => true
  | Dir names =>
      forallb (fun entry : string * FileTree => let (_, child) := entry in readable child)
        names
  | _ => false
  end.

Definition parses (w : World) (fname : string) : bool :=
  match ParseFile w fname with
  | inl _ => false
  | inr _ => true
  end.

(** The measurements of one file, none if it does not parse. *)
Definition measured (w : World) (fname : string) : list stat :=
  match ParseFile w fname with
  | inl _ => []
  | inr (f, fset) => buildStats f fset []
  end.

(** The files of [l] that a walk of [dirname] hands to the parser. *)
Definition targets (skipGodeps skipVendor : bool) (dirname : string) (l : list string)
  : list string :=
  filter (candidate skipGodeps skipVendor dirname) l.

(** The files the parser accepted, among the calls [evs], in their order. *)
Definition parsed (evs : list Call) : list string :=
  flat_map (fun c => match c with
                     | parser_ParseFile f None => [f]
                     | _ => []
                     end) evs.

(** What a walk that returns has gathered: the measurements it began with
    and those of each file the parser accepted on the way. *)
Definition kept (w : World) (stats : list stat) (p : Process)
    (o : Outcome (list stat * option error)) : Prop :=
  match o with
  | Return (stats', _) p' =>
      exists evs,
        calls p' = calls p ++ evs
        /\ stats' = stats ++ flat_map (measured w) (parsed evs)
  | Exit _ _ => True
  end.

(** What a run started in [p] tells about the parser: it returns when every
    call of the parser gave a file, and it stops the process with the error
    of the first call that gave none, the last call it makes. *)
Definition parse_post {A : Type} (p : Process) (o : Outcome A) : Prop :=
  exists evs,
    calls (final o) = calls p ++ evs
    /\ match o with
       | Return _ _ => Forall (fun c => parse_error c = None) evs
       | Exit msg _ =>
           exists evs0 f,
             evs = evs0 ++ [parser_ParseFile f (Some msg)]
             /\ Forall (fun c => parse_error c = None) evs0
       end.

(** What the program needs of [sort.Sort] on a [byComplexity]: the slice is
    rearranged, and afterwards no element sorts before an earlier one unless
    the earlier one sorts before it as well.  (For a strict [Less] this is
    the order [sort.IsSorted] checks; the [Less] of [byComplexity] holds both
    ways between equal values.) *)
Definition sorts (Sort : byComplexity.t -> byComplexity.t) : Prop :=
  forall s,
    Permutation s (Sort s)
    /\ forall i j, (i < j)%nat ->
         sort.Less (Sort s) j i = Some true -> sort.Less (Sort s) i j = Some true.

(** [insertionSort(data, 0, data.Len())] on a [byComplexity]; a panic would
    leave the slice as it is. *)
Definition insertion_sorted (s : byComplexity.t) : byComplexity.t :=
  match sort.insertionSort s 0 (Z.to_nat (sort.Len s)) with
  | Some s' => s'
  | None => s
  end.

(** The values [complexity[i]] of a result are in descending order. *)
Definition descending (stats : list stat) : Prop :=
  forall i a b,
    nth_error stats i = Some a -> nth_error stats (S i) = Some b ->
    Complexity b <= Complexity a.

(** ** Reading a syntax tree

    The nodes of a function declaration's subtree, in the order [ast.Walk]
    presents them to a visitor, and the node kinds the Scorer counts. *)

Definition record (seen : list ast.Node) (n : option ast.Node) : list ast.Node :=
  match n with
  | Some n => seen ++ [n]
  | None => seen
  end.

Definition nodes (n : ast.Node) : list ast.Node := Walk.Walk record n [].

Definition nodes_of (fn : ast.FuncDecl) : list ast.Node :=
  nodes (ast.Node_Decl (ast.Decl_Func fn)).

(** The nodes below the declaration node: those of the signature (doc
    comment, receiver, name, type) and those of the body. *)
Definition signature_nodes (fn : ast.FuncDecl) : list ast.Node :=
  Walk.FuncType record (ast.Type_ fn)
    (Walk.Ident record (ast.Name_ fn)
       (Walk.opt (Walk.FieldList record) (ast.Recv fn)
          (Walk.opt (Walk.CommentGroup record) (ast.Doc fn) []))).

Definition body_nodes (fn : ast.FuncDecl) : list ast.Node :=
  Walk.opt (Walk.BlockStmt record) (ast.Body fn) [].

(** A function or method declaration, an [if], a [for], a [range], a case
    clause of a [switch], or a communication clause of a [select]. *)
Definition is_branch_point (n : ast.Node) : bool :=
  match n with
  | ast.Node_Decl (ast.Decl_Func _) => true
  | ast.Node_Stmt (ast.IfStmt _ _ _ _) => true
  | ast.Node_Stmt (ast.ForStmt _ _ _ _) => true
  | ast.Node_Stmt (ast.RangeStmt _ _ _ _ _) => true
  | ast.Node_Stmt (ast.CaseClause _ _) => true
  | ast.Node_Stmt (ast.CommClause _ _) => true
  | _ => false
  end.

(** A binary expression whose operator is [&&] or [||]. *)
Definition is_logical_operator (n : ast.Node) : bool :=
  match n with
  | ast.Node_Expr (ast.BinaryExpr _ token.LAND _) => true
  | ast.Node_Expr (ast.BinaryExpr _ token.LOR _) => true
  | _ => false
  end.

Definition count (kind : ast.Node -> bool) (l : list ast.Node) : Z :=
  len (filter kind l).

(** *** Example declarations *)

Definition ident (name : string) : ast.Expr := ast.Expr_Ident (ast.mkIdent name).

Definition no_params : ast.FuncType :=
  ast.mkFuncType 11 (Some (ast.mkFieldList [])) None.

Definition func (name : string) (type : ast.FuncType) (body : list ast.Stmt)
  : ast.FuncDecl :=
  {| ast.Doc := None; ast.Recv := None; ast.Name_ := ast.mkIdent name;
     ast.Type_ := type; ast.Body := Some (ast.mkBlockStmt body) |}.

(** [func f() { if a { } else if b { for range c {} } ; x = d && e }] *)
Definition example_five : ast.FuncDecl :=
  func "f" (ast.mkFuncType 34 (Some (ast.mkFieldList [])) None)
    [ ast.IfStmt None (ident "a") (ast.mkBlockStmt [])
        (Some (ast.IfStmt None (ident "b")
                 (ast.mkBlockStmt
                    [ ast.RangeStmt None None token.ILLEGAL (ident "c")
                        (ast.mkBlockStmt []) ])
                 None));
      ast.AssignStmt [ident "x"] token.ASSIGN
        [ast.BinaryExpr (ident "d") token.LAND (ident "e")] ].

(** [func f() { g := func() { if a { } } }] *)
Definition example_closure : ast.FuncDecl :=
  func "f" no_params
    [ ast.AssignStmt [ident "g"] token.DEFINE
        [ast.FuncLit no_params
           (ast.mkBlockStmt [ast.IfStmt None (ident "a") (ast.mkBlockStmt []) None])] ].

(** [if cond { }] *)
Definition plain_if (cond : string) : ast.Stmt :=
  ast.IfStmt None (ident cond) (ast.mkBlockStmt []) None.

(** [func g() { }] *)
Definition example_empty : ast.FuncDecl := func "g" no_params [].

(** [func f(x [len([1]bool{a && b})]int) { }]: the length of an array type
    is any constant expression, and [len] of an array value that holds no
    function call is one. *)
Definition example_signature : ast.FuncDecl :=
  func "f"
    (ast.mkFuncType 1
       (Some (ast.mkFieldList
                [ast.mkField None [ast.mkIdent "x"]
                   (ast.ArrayType
                      (Some (ast.CallExpr (ident "len")
                               [ast.CompositeLit
                                  (Some (ast.ArrayType
                                           (Some (ast.Expr_BasicLit
                                                    (ast.mkBasicLit token.INT "1")))
                                           (ident "bool")))
                                  [ast.BinaryExpr (ident "a") token.LAND (ident "b")]]))
                      (ident "int"))
                   None None]))
       None)
    [].

(** [func (p *Point) Dist() { }] *)
Definition example_method : ast.FuncDecl :=
  {| ast.Doc := None;
     ast.Recv := Some (ast.mkFieldList
                         [ast.mkField None [ast.mkIdent "p"]
                            (ast.StarExpr (ident "Point")) None None]);
     ast.Name_ := ast.mkIdent "Dist";
     ast.Type_ := no_params;
     ast.Body := Some (ast.mkBlockStmt []) |}.

(** The number of receivers, parameters or fields of a list, as a number. *)
Definition fields_count (l : ast.FieldList) : Z :=
  fold_right
    (fun g n => Z.max 1 (len (ast.Field_Names g)) + n)
    0 (ast.FieldList_List l).

(** The sum of the complexity values, as a number. *)
Definition sum_Complexity (stats : list stat) : Z :=
  fold_right (fun s n => Complexity s + n) 0 stats.

(** *** An example world

    Three directories:
    - [.] holds [Godeps/dep.go], [main.go], [notes.txt] and [vendor/v.go];
    - [d] holds [a.go], an entry [b] that cannot be examined, and [c.go];
    - [empty] holds nothing.
    Every file but [broken.go], which does not parse, reads
<<
package p
func g() { }
var x int
func f() { if a { } else if b { for range c {} } ; x = d && e }
>>
*)

Definition example_file : ast.File :=
  {| ast.File_Doc := None;
     ast.File_Name := ast.mkIdent "p";
     ast.Decls :=
       [ ast.Decl_Func example_empty;
         ast.Decl_Gen
           (ast.mkGenDecl None token.VAR
              [ast.ValueSpec None [ast.mkIdent "x"] (Some (ident "int")) [] None]);
         ast.Decl_Func example_five ] |}.

(** [g] starts the second line, at offset 10; [f] the fourth, at offset 33. *)
Definition example_fset (filename : string) : token.FileSet :=
  token.mkFileSet
    (fun pos => token.mkPosition filename (pos - 1) (if pos <? 34 then 2 else 4) 1).

Definition example_world : World :=
  {| Stat := fun name =>
       if String.eqb name "." || String.eqb name "d" || String.eqb name "empty"
       then Some (os.mkFileInfo true)
       else if String.eqb name "main.go" || String.eqb name "notes.txt"
       then Some (os.mkFileInfo false)
       else None;
     Tree := fun root =>
       if String.eqb root "." then
         Dir [ ("Godeps"%string, Dir [("dep.go"%string, File)]);
               ("main.go"%string, File);
               ("notes.txt"%string, File);
               ("vendor"%string, Dir [("v.go"%string, File)]) ]
       else if String.eqb root "d" then
         Dir [ ("a.go"%string, File);
               ("b"%string, NoLstat "permission denied");
               ("c.go"%string, File) ]
       else if String.eqb root "empty" then Dir []
       else NoLstat "no such file or directory";
     ParseFile := fun filename =>
       if String.eqb filename "broken.go" then inl "expected declaration"%string
       else inr (example_file, example_fset filename);
     Join := fun dir name =>
       if String.eqb dir "." then name else (dir ++ "/" ++ name)%string;
     sort_Sort := insertion_sorted |}.

(** The measurements of one example file, as the analysis gathers them and
    as sorted. *)
Definition example_stat_f (filename : string) : stat :=
  {| PkgName := "p"; FuncName := "f"; Complexity := 5;
     Pos := token.mkPosition filename 33 4 1 |}.

Definition example_stat_g (filename : string) : stat :=
  {| PkgName := "p"; FuncName := "g"; Complexity := 1;
     Pos := token.mkPosition filename 10 2 1 |}.

Definition example_stats (filename : string) : list stat :=
  [example_stat_g filename; example_stat_f filename].

Definition example_sorted (filename : string) : list stat :=
  [example_stat_f filename; example_stat_g filename].

(** The example world with one more entry, [link]: a symbolic link to a
    directory.  [os.Stat] follows the link, [os.Lstat] does not. *)
Definition example_link_world : World :=
  {| Stat := fun name =>
       if String.eqb name "link" then Some (os.mkFileInfo true)
       else Stat example_world name;
     Tree := fun root =>
       if String.eqb root "link" then File else Tree example_world root;
     ParseFile := ParseFile example_world;
     Join := Join example_world;
     sort_Sort := sort_Sort example_world |}.

(** *** Insertion sort, by lists

    [bubble r x acc]: the slice after the inner loop of [insertionSort] has
    moved [x], found behind the prefix [rev r], towards the front; [acc]
    holds what it has passed.  [desc l]: every element of [l] is at least
    each later one. *)

Fixpoint bubble (r : list stat) (x : stat) (acc : list stat) : list stat :=
  match r with
  | [] => x :: acc
  | y :: r' =>
      if Complexity y <=? Complexity x then bubble r' x (y :: acc)
      else rev r ++ x :: acc
  end.

Fixpoint desc (l : list stat) : Prop :=
  match l with
  | [] => True
  | a :: l' => Forall (fun b => Complexity b <= Complexity a) l' /\ desc l'
  end.

(** The sorted part of the slice after one more round of the outer loop,
    which takes [x] in. *)
Definition place (sorted : list stat) (x : stat) : list stat :=
  bubble (rev sorted) x [].

(** The measurements of complexity [c] among [l], in their order. *)
Definition scoring (c : Z) (l : list stat) : list stat :=
  filter (fun s => Complexity s =? c) l.

(** *** Invariants of a run *)

(** A run only adds to the log and leaves the variables alone. *)
Definition framed {A : Type} (p : Process) (o : Outcome A) : Prop :=
  same_globals p (final o) /\ exists evs, calls (final o) = calls p ++ evs.

(** Every visit of the tree [t] by the closure of [analyzeDir] ends as
    [walk_post] says. *)
Definition visit_ok (w : World) (dirname : string) (t : FileTree) : Prop :=
  forall path stats p,
    walk_post dirname stats p
      (filepath.visit w (analyzeDir_walkFn w dirname) t path stats p).

(** The outcome [o], with the cache set to [s]. *)
Definition with_cache {A : Type} (s : list stat) (o : Outcome A) : Outcome A :=
  match o with
  | Return a p => Return a (set_statsGlobal s p)
  | Exit msg p => Exit msg (set_statsGlobal s p)
  end.

(** The outcome [o] of a run that began with no measurement, had it begun
    with [stats]. *)
Definition onto {E : Type} (stats : list stat) (o : Outcome (list stat * E))
  : Outcome (list stat * E) :=
  match o with
  | Return (new, e) p => Return (stats ++ new, e) p
  | Exit msg p => Exit msg p
  end.

Definition extended (stats : list stat) (o : Outcome (list stat)) : Outcome (list stat) :=
  match o with
  | Return new p => Return (stats ++ new) p
  | Exit msg p => Exit msg p
  end.

(** A visit of the readable tree [t] by the closure of [analyzeDir], all of
    whose targets parse, returns with the measurements of each target. *)
Definition quiet_visit (w : World) (dirname : string) (t : FileTree) : Prop :=
  readable t = true ->
  forall path stats p,
    forallb (parses w)
      (targets (skipGodepsGlobal p) (skipVendorGlobal p) dirname (files w t path)) = true ->
    exists p',
      filepath.visit w (analyzeDir_walkFn w dirname) t path stats p
      = Return (stats
                ++ flat_map (measured w)
                     (targets (skipGodepsGlobal p) (skipVendorGlobal p) dirname
                        (files w t path)), None) p'
      /\ skipGodepsGlobal p' = skipGodepsGlobal p
      /\ skipVendorGlobal p' = skipVendorGlobal p.

(** Does the string hold a space? *)
Fixpoint has_space (s : string) : bool :=
  match s with
  | EmptyString => false
  | String c s' => Ascii.eqb c " " || has_space s'
  end.

(** The nodes the Scorer counts among [l]. *)
Definition counted (l : list ast.Node) : Z :=
  count is_branch_point l + count is_logical_operator l.

(** *** Relating two visitors

    [sim R walk1 walk2 a]: walking [a] with two visitors keeps their states
    related by [R]. *)
Definition sim {V1 V2 : Type} (R : V1 -> V2 -> Prop) {A : Type}
    (walk1 : A -> V1 -> V1) (walk2 : A -> V2 -> V2) (a : A) : Prop :=
  forall v1 v2, R v1 v2 -> R (walk1 a v1) (walk2 a v2).

(** [l1] is [l2] after the nodes [l0]. *)
Definition extends (l0 l1 l2 : list ast.Node) : Prop := l1 = l0 ++ l2.

(** The visitor's counter is the wrapped number of counted nodes seen. *)
Definition counts (v : complexityVisitor.t) (seen : list ast.Node) : Prop :=
  complexityVisitor.Complexity v = int.wrap (counted seen).

(** Walking with the recording visitor appends to what has been seen. *)
Definition appends {A : Type} (walk : A -> list ast.Node -> list ast.Node) : Prop :=
  forall a seen, walk a seen = seen ++ walk a [].

(** * Properties *)

(** ** Go's [int] *)

Lemma wrap_small z : int.MinInt <= z <= int.MaxInt -> int.wrap z = z.
Proof.
  unfold int.wrap, int.MinInt, int.MaxInt, int.size. intros H.
  change (2 ^ (64 - 1)) with 9223372036854775808 in *.
  change (2 ^ 64) with 18446744073709551616.
  rewrite Z.mod_small; lia.
Qed.

Lemma wrap_add x y : int.add (int.wrap x) y = int.wrap (x + y).
Proof.
  unfold int.add, int.wrap.
  replace ((x + 2 ^ (int.size - 1)) mod 2 ^ int.size - 2 ^ (int.size - 1) + y
           + 2 ^ (int.size - 1))
    with ((x + 2 ^ (int.size - 1)) mod 2 ^ int.size + y) by lia.
  rewrite Zplus_mod_idemp_l. f_equal. f_equal. lia.
Qed.

Lemma wrap_succ z : int.add (int.wrap z) 1 = int.wrap (z + 1).
Proof. apply wrap_add. Qed.

(** ** Walking with two visitors *)

Section Simulation.
Context {V1 V2 : Type}.
Variable Visit1 : V1 -> option ast.Node -> V1.
Variable Visit2 : V2 -> option ast.Node -> V2.
Variable R : V1 -> V2 -> Prop.
Hypothesis Visit_R : forall v1 v2 n, R v1 v2 -> R (Visit1 v1 n) (Visit2 v2 n).

Lemma sim_node n c1 c2 :
  (forall v1 v2, R v1 v2 -> R (c1 v1) (c2 v2)) ->
  forall v1 v2, R v1 v2 -> R (Walk.node Visit1 n c1 v1) (Walk.node Visit2 n c2 v2).
Proof. intros Hc v1 v2 H. unfold Walk.node. auto. Qed.

Lemma sim_opt {A} (w1 : A -> V1 -> V1) (w2 : A -> V2 -> V2) (o : option A) :
  option_all A (sim R w1 w2) o ->
  forall v1 v2, R v1 v2 -> R (Walk.opt w1 o v1) (Walk.opt w2 o v2).
Proof. intros Ho v1 v2 H. destruct Ho; simpl; auto. Qed.

Lemma sim_each {A} (w1 : A -> V1 -> V1) (w2 : A -> V2 -> V2) (l : list A) :
  list_all A (sim R w1 w2) l ->
  forall v1 v2, R v1 v2 -> R (Walk.each w1 l v1) (Walk.each w2 l v2).
Proof.
  unfold Walk.each. induction 1; simpl; auto.
Qed.
Lemma all_opt {A} (P : A -> Prop) (o : option A) : (forall a, P a) -> option_all A P o.
Proof. intros H. destruct o; constructor; auto. Qed.

Lemma all_list {A} (P : A -> Prop) (l : list A) : (forall a, P a) -> list_all A P l.
Proof. intros H. induction l; constructor; auto. Qed.

Lemma sim_Comment c : sim R (Walk.Comment Visit1) (Walk.Comment Visit2) c.
Proof. intros v1 v2 H. apply sim_node; auto. Qed.

Lemma sim_CommentGroup g : sim R (Walk.CommentGroup Visit1) (Walk.CommentGroup Visit2) g.
Proof.
  intros v1 v2 H. apply sim_node; auto. apply sim_each. apply all_list, sim_Comment.
Qed.

Lemma sim_Ident i : sim R (Walk.Ident Visit1) (Walk.Ident Visit2) i.
Proof. intros v1 v2 H. apply sim_node; auto. Qed.

Lemma sim_BasicLit i : sim R (Walk.BasicLit Visit1) (Walk.BasicLit Visit2) i.
Proof. intros v1 v2 H. apply sim_node; auto. Qed.

Ltac sim_step :=
  first
    [ assumption
    | apply sim_node
    | apply sim_CommentGroup
    | apply sim_Ident
    | apply sim_BasicLit
    | apply sim_opt;
      [ first
          [ assumption
          | apply all_opt;
            first [ exact sim_CommentGroup | exact sim_Ident | exact sim_BasicLit ] ]
      | ]
    | apply sim_each; [ first [ assumption | apply all_list; exact sim_Ident ] | ]
    | match goal with H : sim _ _ _ ?a |- R (_ ?a _) (_ ?a _) => apply H end
    | intros ? ? ? ].

Lemma sim_nodes :
  (forall e, sim R (Walk.Expr Visit1) (Walk.Expr Visit2) e) /\
  (forall s, sim R (Walk.Stmt Visit1) (Walk.Stmt Visit2) s) /\
  (forall b, sim R (Walk.BlockStmt Visit1) (Walk.BlockStmt Visit2) b) /\
  (forall t, sim R (Walk.FuncType Visit1) (Walk.FuncType Visit2) t) /\
  (forall l, sim R (Walk.FieldList Visit1) (Walk.FieldList Visit2) l) /\
  (forall f, sim R (Walk.Field Visit1) (Walk.Field Visit2) f) /\
  (forall s, sim R (Walk.Spec Visit1) (Walk.Spec Visit2) s) /\
  (forall d, sim R (Walk.GenDecl Visit1) (Walk.GenDecl Visit2) d).
Proof.
  apply ast.node_mutind; intros; intros v1 v2 HR; simpl; repeat sim_step.
Qed.

End Simulation.

Section SimulationDecl.
Context {V1 V2 : Type}.
Variable Visit1 : V1 -> option ast.Node -> V1.
Variable Visit2 : V2 -> option ast.Node -> V2.
Variable R : V1 -> V2 -> Prop.
Hypothesis Visit_R : forall v1 v2 n, R v1 v2 -> R (Visit1 v1 n) (Visit2 v2 n).

Lemma sim_FuncDecl fn : sim R (Walk.FuncDecl Visit1) (Walk.FuncDecl Visit2) fn.
Proof.
  destruct (sim_nodes Visit1 Visit2 R Visit_R)
    as (_ & _ & Hblock & Htype & Hlist & _).
  intros v1 v2 HR. unfold Walk.FuncDecl.
  apply sim_node; auto. clear v1 v2 HR. intros v1 v2 HR.
  apply sim_opt; [apply all_opt, Hblock|].
  apply Htype. apply sim_Ident; auto.
  apply sim_opt; [apply all_opt, Hlist|].
  apply sim_opt; [apply all_opt, sim_CommentGroup; auto|]. exact HR.
Qed.

End SimulationDecl.

(** ** The recorded nodes *)

Lemma record_app l0 l n : record (l0 ++ l) n = l0 ++ record l n.
Proof. destruct n; simpl; auto using app_assoc. Qed.

Lemma record_extends l0 v1 v2 n :
  extends l0 v1 v2 -> extends l0 (record v1 n) (record v2 n).
Proof. unfold extends. intros ->. apply record_app. Qed.

Lemma nodes_of_split fn :
  nodes_of fn = ast.Node_Decl (ast.Decl_Func fn) :: signature_nodes fn ++ body_nodes fn.
Proof.
  unfold nodes_of, nodes. cbn [Walk.Walk Walk.Decl].
  unfold Walk.FuncDecl, Walk.node, signature_nodes, body_nodes. simpl.
  set (D := ast.Node_Decl (ast.Decl_Func fn)).
  destruct (sim_nodes record record (extends [D]) (record_extends [D]))
    as (_ & _ & _ & Htype & Hlist & _).
  assert (Hsig : extends [D]
            (Walk.FuncType record (ast.Type_ fn)
               (Walk.Ident record (ast.Name_ fn)
                  (Walk.opt (Walk.FieldList record) (ast.Recv fn)
                     (Walk.opt (Walk.CommentGroup record) (ast.Doc fn) [D]))))
            (signature_nodes fn)).
  { apply Htype. apply sim_Ident; [apply record_extends|].
    apply sim_opt; [apply all_opt, Hlist|].
    apply sim_opt; [apply all_opt, sim_CommentGroup, record_extends|].
    reflexivity. }
  unfold signature_nodes in Hsig. rewrite Hsig. clear Hsig Htype Hlist.
  set (sg := Walk.FuncType record _ _).
  destruct (sim_nodes record record (extends ([D] ++ sg)) (record_extends _))
    as (_ & _ & Hblock & _).
  assert (Hbody : extends ([D] ++ sg)
            (Walk.opt (Walk.BlockStmt record) (ast.Body fn) ([D] ++ sg))
            (Walk.opt (Walk.BlockStmt record) (ast.Body fn) [])).
  { apply sim_opt; [apply all_opt, Hblock|]. unfold extends. now rewrite app_nil_r. }
  rewrite Hbody. reflexivity.
Qed.

(** ** The recorded nodes are the subtree in pre-order *)

Lemma sim_appends {A} (walk : A -> list ast.Node -> list ast.Node) :
  (forall l0 a, sim (extends l0) walk walk a) -> appends walk.
Proof.
  intros H a seen. apply (H seen a). unfold extends. now rewrite app_nil_r.
Qed.

Lemma record_appends :
  appends (Walk.Expr record) /\ appends (Walk.Stmt record)
  /\ appends (Walk.BlockStmt record) /\ appends (Walk.FuncType record)
  /\ appends (Walk.FieldList record) /\ appends (Walk.Field record)
  /\ appends (Walk.Spec record) /\ appends (Walk.GenDecl record).
Proof.
  repeat split; apply sim_appends; intros l0;
    apply (sim_nodes record record (extends l0) (record_extends l0)).
Qed.

Lemma Comment_appends : appends (Walk.Comment record).
Proof. apply sim_appends. intros l0 a. apply sim_Comment, record_extends. Qed.

Lemma CommentGroup_appends : appends (Walk.CommentGroup record).
Proof. apply sim_appends. intros l0 a. apply sim_CommentGroup, record_extends. Qed.

Lemma Ident_appends : appends (Walk.Ident record).
Proof. apply sim_appends. intros l0 a. apply sim_Ident, record_extends. Qed.

Lemma BasicLit_appends : appends (Walk.BasicLit record).
Proof. apply sim_appends. intros l0 a. apply sim_BasicLit, record_extends. Qed.

Lemma FuncDecl_appends : appends (Walk.FuncDecl record).
Proof. apply sim_appends. intros l0 a. apply sim_FuncDecl, record_extends. Qed.

Lemma Decl_appends : appends (Walk.Decl record).
Proof.
  intros [|d|d] seen; simpl.
  - reflexivity.
  - apply record_appends.
  - apply FuncDecl_appends.
Qed.

Lemma each_nodes {A} (walk : A -> list ast.Node -> list ast.Node) (node : A -> ast.Node) :
  appends walk -> (forall a, walk a [] = nodes (node a)) ->
  forall l seen, Walk.each walk l seen = seen ++ flat_map nodes (map node l).
Proof.
  intros Happ Hnode. unfold Walk.each.
  induction l as [|a l IH]; intros seen; simpl.
  - now rewrite app_nil_r.
  - rewrite IH, (Happ a seen), Hnode. now rewrite <- app_assoc.
Qed.

Lemma opt_nodes {A} (walk : A -> list ast.Node -> list ast.Node) (node : A -> ast.Node) :
  appends walk -> (forall a, walk a [] = nodes (node a)) ->
  forall o seen, Walk.opt walk o seen = seen ++ flat_map nodes (ast.of_option node o).
Proof.
  intros Happ Hnode [a|] seen; simpl.
  - now rewrite (Happ a seen), Hnode, app_nil_r.
  - now rewrite app_nil_r.
Qed.

Lemma one_nodes {A} (walk : A -> list ast.Node -> list ast.Node) (node : A -> ast.Node) :
  appends walk -> (forall a, walk a [] = nodes (node a)) ->
  forall a seen, walk a seen = seen ++ flat_map nodes [node a].
Proof.
  intros Happ Hnode a seen. simpl. now rewrite (Happ a seen), Hnode, app_nil_r.
Qed.

Ltac unfold_walk :=
  destruct record_appends as (HE & HS & HB & HT & HL & HF & HP & HG);
  repeat
    first
      [ rewrite (each_nodes (Walk.Expr record) ast.Node_Expr HE (fun _ => eq_refl))
      | rewrite (each_nodes (Walk.Stmt record) ast.Node_Stmt HS (fun _ => eq_refl))
      | rewrite (each_nodes (Walk.Field record) ast.Node_Field HF (fun _ => eq_refl))
      | rewrite (each_nodes (Walk.Spec record) ast.Node_Spec HP (fun _ => eq_refl))
      | rewrite (each_nodes (Walk.Ident record) ast.of_Ident Ident_appends
                   (fun _ => eq_refl))
      | rewrite (each_nodes (Walk.Comment record) ast.Node_Comment Comment_appends
                   (fun _ => eq_refl))
      | rewrite (each_nodes (Walk.Decl record) ast.Node_Decl Decl_appends
                   (fun _ => eq_refl))
      | rewrite (opt_nodes (Walk.Expr record) ast.Node_Expr HE (fun _ => eq_refl))
      | rewrite (opt_nodes (Walk.Stmt record) ast.Node_Stmt HS (fun _ => eq_refl))
      | rewrite (opt_nodes (Walk.BlockStmt record) ast.of_BlockStmt HB (fun _ => eq_refl))
      | rewrite (opt_nodes (Walk.FieldList record) ast.Node_FieldList HL
                   (fun _ => eq_refl))
      | rewrite (opt_nodes (Walk.Ident record) ast.of_Ident Ident_appends
                   (fun _ => eq_refl))
      | rewrite (opt_nodes (Walk.BasicLit record) ast.of_BasicLit BasicLit_appends
                   (fun _ => eq_refl))
      | rewrite (opt_nodes (Walk.CommentGroup record) ast.Node_CommentGroup
                   CommentGroup_appends (fun _ => eq_refl))
      | rewrite (one_nodes (Walk.Expr record) ast.Node_Expr HE (fun _ => eq_refl))
      | rewrite (one_nodes (Walk.Stmt record) ast.Node_Stmt HS (fun _ => eq_refl))
      | rewrite (one_nodes (Walk.BlockStmt record) ast.of_BlockStmt HB (fun _ => eq_refl))
      | rewrite (one_nodes (Walk.FuncType record) ast.of_FuncType HT (fun _ => eq_refl))
      | rewrite (one_nodes (Walk.FieldList record) ast.Node_FieldList HL
                   (fun _ => eq_refl))
      | rewrite (one_nodes (Walk.GenDecl record) ast.of_GenDecl HG (fun _ => eq_refl))
      | rewrite (one_nodes (Walk.Ident record) ast.of_Ident Ident_appends
                   (fun _ => eq_refl))
      | rewrite (one_nodes (Walk.BasicLit record) ast.of_BasicLit BasicLit_appends
                   (fun _ => eq_refl)) ];
  repeat (cbn [flat_map app]; rewrite ?flat_map_app, ?app_nil_r, <- ?app_assoc);
  try reflexivity.

Lemma nodes_preorder n : nodes n = n :: flat_map nodes (ast.children n).
Proof.
  unfold nodes at 1.
  destruct n as [c|g|f|l|e|s|s|d|f]; cbn [Walk.Walk].
  - reflexivity.
  - unfold Walk.CommentGroup, Walk.node. cbn [record ast.children app]. unfold_walk.
  - destruct f. cbn [Walk.Field]. unfold Walk.node. cbn [record ast.children app].
    unfold_walk.
  - destruct l. cbn [Walk.FieldList]. unfold Walk.node. cbn [record ast.children app].
    unfold_walk.
  - destruct e; try destruct t; cbn [Walk.Expr Walk.FuncType]; unfold Walk.node;
      cbn [record ast.children ast.Expr_children app]; unfold_walk.
  - destruct s; try destruct b; cbn [Walk.Stmt Walk.BlockStmt]; unfold Walk.node;
      cbn [record ast.children ast.Stmt_children app]; unfold_walk.
  - destruct s; cbn [Walk.Spec]; unfold Walk.node;
      cbn [record ast.children ast.Spec_children app]; unfold_walk.
  - destruct d as [|[]|d]; cbn [Walk.Decl Walk.GenDecl];
      unfold Walk.FuncDecl, Walk.leaf, Walk.node;
      cbn [record ast.children ast.Decl_children app]; unfold_walk.
  - unfold Walk.File, Walk.node. cbn [record ast.children app]. unfold_walk.
Qed.

(** ** The Scorer counts *)

Lemma count_app kind l1 l2 : count kind (l1 ++ l2) = count kind l1 + count kind l2.
Proof. unfold count, len. rewrite filter_app, length_app. lia. Qed.

Lemma count_nonneg kind l : 0 <= count kind l.
Proof. unfold count, len. lia. Qed.

Lemma Visit_counts v seen n :
  counts v seen -> counts (complexityVisitor.Visit v n) (record seen n).
Proof.
  unfold counts, counted. intros H.
  destruct n as [n|]; [|exact H]. simpl record. rewrite !count_app.
  assert (Hkeep : count is_branch_point [n] = 0 -> count is_logical_operator [n] = 0 ->
                  complexityVisitor.Complexity v
                  = int.wrap (count is_branch_point seen + count is_branch_point [n]
                              + (count is_logical_operator seen + count is_logical_operator [n]))).
  { intros -> ->. rewrite H. f_equal. lia. }
  assert (Hinc : count is_branch_point [n] + count is_logical_operator [n] = 1 ->
                 complexityVisitor.Complexity (complexityVisitor.incr v)
                  = int.wrap (count is_branch_point seen + count is_branch_point [n]
                              + (count is_logical_operator seen + count is_logical_operator [n]))).
  { intros Hn. unfold complexityVisitor.incr. simpl. rewrite H, wrap_succ. f_equal. lia. }
  destruct n as [c|g|f|l|e|s|s|d|f]; try (apply Hkeep; reflexivity).
  - destruct e; try (apply Hkeep; reflexivity).
    destruct Op; first [apply Hinc; reflexivity | apply Hkeep; reflexivity].
  - destruct s; first [apply Hinc; reflexivity | apply Hkeep; reflexivity].
  - destruct d; first [apply Hinc; reflexivity | apply Hkeep; reflexivity].
Qed.

Lemma complexity_wrap fn : complexity fn = int.wrap (counted (nodes_of fn)).
Proof.
  unfold complexity, nodes_of, nodes. cbn [Walk.Walk Walk.Decl].
  apply (sim_FuncDecl complexityVisitor.Visit record counts Visit_counts fn).
  reflexivity.
Qed.

Lemma complexity_example_five : complexity example_five = 5.
Proof. reflexivity. Qed.
Lemma complexity_example_closure : complexity example_closure = 2.
Proof. reflexivity. Qed.

Lemma counted_app l1 l2 : counted (l1 ++ l2) = counted l1 + counted l2.
Proof. unfold counted. rewrite !count_app. lia. Qed.

Lemma counted_nonneg l : 0 <= counted l.
Proof. unfold counted. pose proof (count_nonneg is_branch_point l).
  pose proof (count_nonneg is_logical_operator l). lia. Qed.

Lemma counted_nodes_of fn :
  counted (nodes_of fn) = 1 + counted (signature_nodes fn) + counted (body_nodes fn).
Proof.
  rewrite nodes_of_split.
  change (?x :: ?l) with ([x] ++ l). rewrite !counted_app.
  change (counted [_]) with 1. lia.
Qed.

(** C1.  The score of a function declaration is the number of branch
    points among the nodes of its subtree (the declaration itself, [if],
    [for], [range], case and communication clauses) plus the number of
    binary expressions with [&&] or [||]; the nodes of function literals in
    the body are nodes of the subtree, and no other node adds to the score.
    [nodes_of fn] lists the subtree: by [nodes_preorder], a node and then
    the subtrees of its children.  The count is taken to fit an [int].  The body
    [if a { } else if b { for range c {} } ; x = d && e] scores 5, and a
    body holding a function literal with one [if] scores 2. *)
Theorem complexity_counts_branch_points :
  (forall fn : ast.FuncDecl,
      count is_branch_point (nodes_of fn) + count is_logical_operator (nodes_of fn)
      <= int.MaxInt ->
      complexity fn
      = count is_branch_point (nodes_of fn) + count is_logical_operator (nodes_of fn))
  /\ complexity example_five = 5
  /\ complexity example_closure = 2.
Proof.
  split; [|split; reflexivity].
  intros fn Hfit. rewrite complexity_wrap. apply wrap_small.
  pose proof (counted_nonneg (nodes_of fn)). unfold counted in *.
  unfold int.MinInt, int.size. simpl. lia.
Qed.

(** C1 at [example_five]. *)
Lemma complexity_counts_example :
  count is_branch_point (nodes_of example_five)
  + count is_logical_operator (nodes_of example_five) <= int.MaxInt
  /\ complexity example_five
     = count is_branch_point (nodes_of example_five)
       + count is_logical_operator (nodes_of example_five).
Proof.
  split.
  - vm_compute. discriminate.
  - apply (proj1 complexity_counts_branch_points). vm_compute. discriminate.
Defined.

Lemma buildStats_In f fset stats s :
  In s (buildStats f fset stats) ->
  In s stats \/
  exists fn, In (ast.Decl_Func fn) (ast.Decls f) /\ Complexity s = complexity fn
             /\ FuncName s = funcName fn /\ PkgName s = ast.Name (ast.File_Name f).
Proof.
  unfold buildStats. generalize (ast.Decls f) as decls.
  intros decls. revert stats.
  assert (H : forall stats, In s (fold_left
     (fun (stats0 : list stat) (decl : ast.Decl) =>
      match decl with
      | ast.Decl_Func fn =>
          stats0 ++
          [{| PkgName := ast.Name (ast.File_Name f); FuncName := funcName fn;
              Complexity := complexity fn;
              Pos := token.Position_of fset (ast.FuncDecl_Pos fn) |}]
      | _ => stats0
      end) decls stats) -> In s stats \/
      exists fn, In (ast.Decl_Func fn) decls /\ Complexity s = complexity fn
             /\ FuncName s = funcName fn /\ PkgName s = ast.Name (ast.File_Name f)).
  { induction decls as [|d decls IH]; simpl; intros stats Hin; [now left|].
    apply IH in Hin. destruct Hin as [Hin|(fn & Hfn & Heq)].
    - destruct d; auto. apply in_app_or in Hin. destruct Hin as [Hin|[<-|[]]]; auto.
      right. exists d. simpl. auto.
    - right. exists fn. auto. }
  exact H.
Qed.

(** C5, amended.  Every measurement [buildStats] adds has complexity at
    least 1 (the counted nodes of each function fitting an [int]).  A
    function scores exactly 1 when neither its signature nor its body holds
    a branch point or a logical operator; with such a signature, a missing
    or an empty body gives 1. *)
Theorem complexity_at_least_one :
  (forall f fset stats s,
      (forall fn, In (ast.Decl_Func fn) (ast.Decls f) -> counted (nodes_of fn) <= int.MaxInt) ->
      (forall s0, In s0 stats -> 1 <= Complexity s0) ->
      In s (buildStats f fset stats) -> 1 <= Complexity s)
  /\ (forall fn,
         counted (signature_nodes fn) = 0 -> counted (body_nodes fn) = 0 ->
         complexity fn = 1)
  /\ (forall fn,
         counted (signature_nodes fn) = 0 ->
         ast.Body fn = None \/ ast.Body fn = Some (ast.mkBlockStmt []) ->
         complexity fn = 1).
Proof.
  assert (Hone : forall fn,
             counted (signature_nodes fn) = 0 -> counted (body_nodes fn) = 0 ->
             complexity fn = 1).
  { intros fn Hs Hb. rewrite complexity_wrap, counted_nodes_of, Hs, Hb. reflexivity. }
  split; [|split]; auto.
  - intros f fset stats s Hfit Hold Hin.
    apply buildStats_In in Hin. destruct Hin as [Hin|(fn & Hfn & -> & _)]; auto.
    rewrite complexity_wrap, wrap_small.
    + rewrite counted_nodes_of.
      pose proof (counted_nonneg (signature_nodes fn)).
      pose proof (counted_nonneg (body_nodes fn)). lia.
    + pose proof (counted_nonneg (nodes_of fn)). specialize (Hfit fn Hfn).
      unfold int.MinInt, int.size. simpl. lia.
  - intros fn Hs Hb. apply Hone; auto. unfold body_nodes.
    destruct Hb as [-> | ->]; reflexivity.
Qed.

(** C5, amended, at the file [example_file] and at [example_empty]. *)
Lemma complexity_at_least_one_example :
  In (example_stat_f "main.go") (buildStats example_file (example_fset "main.go") [])
  /\ 1 <= Complexity (example_stat_f "main.go")
  /\ complexity example_empty = 1.
Proof.
  split; [right; left; reflexivity|]. split.
  - apply (proj1 complexity_at_least_one example_file (example_fset "main.go") []).
    + intros fn [H|[H|[H|[]]]]; try discriminate; injection H as <-;
        vm_compute; discriminate.
    + intros s0 [].
    + right; left; reflexivity.
  - apply (proj1 (proj2 complexity_at_least_one)); reflexivity.
Defined.

(** C5 as stated fails: [func f(x [len([1]bool{a && b})]int) { }] has an
    empty body, with no branch point and no logical operator in it, and
    scores 2. *)
Lemma empty_body_scores_two :
  ast.Body example_signature = Some (ast.mkBlockStmt [])
  /\ count is_branch_point (body_nodes example_signature) = 0
  /\ count is_logical_operator (body_nodes example_signature) = 0
  /\ complexity example_signature = 2.
Proof. repeat split. Qed.

(** ** The names of the Unit Extractor *)

Lemma NumFields_wrap recv : ast.NumFields (Some recv) = int.wrap (fields_count recv).
Proof.
  unfold ast.NumFields, fields_count.
  assert (H : forall l acc,
             fold_left
               (fun n g =>
                  let m := Z.of_nat (Datatypes.length (ast.Field_Names g)) in
                  let m0 := if m =? 0 then 1 else m in int.add n m0) l (int.wrap acc)
             = int.wrap (acc + fold_right
                                 (fun g n => Z.max 1 (len (ast.Field_Names g)) + n) 0 l)).
  { induction l as [|g l IH]; intros acc; simpl.
    - f_equal. lia.
    - rewrite wrap_add, IH. f_equal. unfold len.
      destruct (Z.eqb_spec (Z.of_nat (Datatypes.length (ast.Field_Names g))) 0); lia. }
  apply (H _ 0).
Qed.

Lemma fields_count_pos recv f rest :
  ast.FieldList_List recv = f :: rest -> 1 <= fields_count recv.
Proof.
  unfold fields_count. intros ->. simpl.
  assert (0 <= fold_right (fun g n => Z.max 1 (len (ast.Field_Names g)) + n) 0 rest).
  { induction rest; simpl; lia. }
  lia.
Qed.

(** C6.  [funcName] is the bare name without a receiver (no receiver
    list, or an empty one) and ["(R).Name"] with one, where [R] renders the
    type of the first receiver: its name for an identifier, ["*"] before
    the rendering of the pointed-to type for a pointer type, ["BADRECV"]
    for any other expression.  The number of receivers is taken to fit an
    [int].  [func (p *Point) Dist()] gives ["(*Point).Dist"]. *)
Theorem funcName_renders_receiver :
  (forall fn, ast.Recv fn = None -> funcName fn = ast.Name (ast.Name_ fn))
  /\ (forall fn recv,
         ast.Recv fn = Some recv -> ast.FieldList_List recv = [] ->
         funcName fn = ast.Name (ast.Name_ fn))
  /\ (forall fn recv f rest,
         ast.Recv fn = Some recv -> ast.FieldList_List recv = f :: rest ->
         fields_count recv <= int.MaxInt ->
         funcName fn
         = ("(" ++ recvString (ast.Field_Type f) ++ ")." ++ ast.Name (ast.Name_ fn))%string)
  /\ (forall id, recvString (ast.Expr_Ident id) = ast.Name id)
  /\ (forall X, recvString (ast.StarExpr X) = ("*" ++ recvString X)%string)
  /\ (forall e,
         (forall id, e <> ast.Expr_Ident id) -> (forall X, e <> ast.StarExpr X) ->
         recvString e = "BADRECV"%string)
  /\ funcName example_method = "(*Point).Dist"%string.
Proof.
  repeat split.
  - intros fn H. unfold funcName. now rewrite H.
  - intros fn recv H Hl. unfold funcName. rewrite H, Hl.
    now destruct (0 <? ast.NumFields (Some recv)).
  - intros fn recv f rest H Hl Hfit. unfold funcName. rewrite H.
    pose proof (fields_count_pos recv f rest Hl) as Hpos.
    rewrite NumFields_wrap, wrap_small by (unfold int.MinInt, int.size; simpl; lia).
    rewrite Hl. now destruct (Z.ltb_spec 0 (fields_count recv)); [|lia].
  - intros e Hid Hstar. destruct e; try reflexivity.
    + now destruct (Hid id).
    + now destruct (Hstar e).
Qed.

(** C6 at [example_method]. *)
Lemma funcName_example_method :
  ast.Recv example_method
  = Some (ast.mkFieldList
            [ast.mkField None [ast.mkIdent "p"] (ast.StarExpr (ident "Point")) None None])
  /\ funcName example_method
     = ("(" ++ recvString (ast.StarExpr (ident "Point")) ++ ")."
        ++ ast.Name (ast.Name_ example_method))%string.
Proof.
  split; [reflexivity|].
  apply (proj1 (proj2 (proj2 funcName_renders_receiver)) example_method
           (ast.mkFieldList
              [ast.mkField None [ast.mkIdent "p"] (ast.StarExpr (ident "Point")) None None])
           (ast.mkField None [ast.mkIdent "p"] (ast.StarExpr (ident "Point")) None None) []).
  - reflexivity.
  - reflexivity.
  - vm_compute. discriminate.
Defined.

(** ** The average *)

Lemma total_wrap stats acc :
  fold_left (fun total s => int.add total (Complexity s)) stats (int.wrap acc)
  = int.wrap (acc + sum_Complexity stats).
Proof.
  revert acc. induction stats as [|s stats IH]; intros acc; simpl.
  - f_equal. lia.
  - rewrite wrap_add, IH. f_equal. lia.
Qed.

(** C3.  For a non-empty result whose sum of complexity values fits an
    [int], [average] is the [float64] quotient of the sum by the number of
    measurements, each converted to [float64]; for the empty result it is
    NaN, a value and not an error. *)
Theorem average_is_sum_over_count :
  (forall stats,
      stats <> [] -> int.InRange (sum_Complexity stats) ->
      average stats
      = float64.div (float64.of_int (sum_Complexity stats)) (float64.of_int (len stats)))
  /\ average [] = float64.NaN.
Proof.
  split; [|reflexivity].
  intros stats _ Hfit. unfold average.
  change 0 with (int.wrap 0) at 1. rewrite total_wrap, wrap_small; auto.
Qed.

(** C3 at the measurements 1 and 5: the average is 3. *)
Lemma average_example :
  example_stats "main.go" <> []
  /\ int.InRange (sum_Complexity (example_stats "main.go"))
  /\ average (example_stats "main.go")
     = float64.div (float64.of_int (sum_Complexity (example_stats "main.go")))
         (float64.of_int (len (example_stats "main.go")))
  /\ float64.div (float64.of_int (sum_Complexity (example_stats "main.go")))
       (float64.of_int (len (example_stats "main.go")))
     = float64.of_int 3.
Proof.
  split; [discriminate|]. split; [split; discriminate|]. split; [|reflexivity].
  apply (proj1 average_is_sum_over_count); [discriminate|split; discriminate].
Defined.

(** ** [strings.HasPrefix] and [strings.HasSuffix] *)

Lemma length_append s1 s2 :
  String.length (s1 ++ s2) = (String.length s1 + String.length s2)%nat.
Proof. induction s1 as [|c s1 IH]; simpl; congruence. Qed.

Lemma substring_prefix p : forall rest,
  String.substring 0 (String.length p) (p ++ rest) = p.
Proof. induction p as [|c p IH]; intros rest; simpl; [now destruct rest|now rewrite IH]. Qed.

Lemma substring_0_split n : forall s,
  (n <= String.length s)%nat ->
  s = (String.substring 0 n s ++ String.substring n (String.length s - n) s)%string.
Proof.
  induction n as [|n IH]; intros s Hn.
  - simpl. rewrite Nat.sub_0_r.
    assert (H : forall s, String.substring 0 (String.length s) s = s)
      by (induction s0 as [|c s0 IHs]; simpl; congruence).
    destruct s; simpl; [reflexivity|]. now rewrite H.
  - destruct s as [|c s]; simpl in *; [lia|]. f_equal. apply IH. lia.
Qed.

Lemma HasPrefix_spec s prefix :
  strings.HasPrefix s prefix = true <-> exists rest, s = (prefix ++ rest)%string.
Proof.
  unfold strings.HasPrefix. split.
  - intros H. apply andb_prop in H. destruct H as [Hlen Heq].
    apply Nat.leb_le in Hlen. apply String.eqb_eq in Heq.
    exists (String.substring (String.length prefix)
              (String.length s - String.length prefix) s).
    rewrite <- Heq at 1. now apply substring_0_split.
  - intros [rest ->]. apply andb_true_intro. split.
    + apply Nat.leb_le. rewrite length_append. lia.
    + apply String.eqb_eq. apply substring_prefix.
Qed.

Lemma substring_skip front : forall s n,
  String.substring (String.length front + 0) n (front ++ s) = String.substring 0 n s.
Proof. induction front as [|c front IH]; intros s n; simpl; auto. Qed.

Lemma substring_all s : String.substring 0 (String.length s) s = s.
Proof. induction s as [|c s IH]; simpl; congruence. Qed.

Lemma HasSuffix_spec s suffix :
  strings.HasSuffix s suffix = true <-> exists front, s = (front ++ suffix)%string.
Proof.
  unfold strings.HasSuffix. split.
  - intros H. apply andb_prop in H. destruct H as [Hlen Heq].
    apply Nat.leb_le in Hlen. apply String.eqb_eq in Heq.
    exists (String.substring 0 (String.length s - String.length suffix) s).
    rewrite <- Heq at 2.
    rewrite (substring_0_split (String.length s - String.length suffix) s) at 1 by lia.
    do 2 f_equal. lia.
  - intros [front ->]. apply andb_true_intro. split.
    + apply Nat.leb_le. rewrite length_append. lia.
    + apply String.eqb_eq. rewrite length_append.
      replace (String.length front + String.length suffix - String.length suffix)%nat
        with (String.length front + 0)%nat by lia.
      rewrite substring_skip. apply substring_all.
Qed.

(** ** The Path Walker *)

Lemma buildStats_app f fset stats :
  buildStats f fset stats = stats ++ buildStats f fset [].
Proof.
  unfold buildStats. generalize (ast.Decls f) as decls. intros decls.
  revert stats. induction decls as [|d decls IH]; intros stats; simpl.
  - now rewrite app_nil_r.
  - destruct d; auto. rewrite IH. simpl. rewrite (IH [_]). now rewrite <- app_assoc.
Qed.

Lemma isAnalyzeTargetGodeps_run dirname path p :
  isAnalyzeTargetGodeps dirname path p
  = Return (negb (skipGodepsGlobal p
                  && strings.HasPrefix path (reserved_prefix dirname "Godeps"))
            && strings.HasSuffix path ".go") p.
Proof.
  unfold isAnalyzeTargetGodeps, bind, load, ret.
  change (if String.eqb dirname "." then "Godeps"%string
          else strings.Join [dirname; "Godeps"%string] (String os.PathSeparator EmptyString))
    with (reserved_prefix dirname "Godeps").
  destruct (strings.HasPrefix path (reserved_prefix dirname "Godeps")),
    (skipGodepsGlobal p); reflexivity.
Qed.

Lemma isAnalyzeTargetVendor_run dirname path p :
  isAnalyzeTargetVendor dirname path p
  = Return (negb (skipVendorGlobal p
                  && strings.HasPrefix path (reserved_prefix dirname "vendor"))
            && strings.HasSuffix path ".go") p.
Proof.
  unfold isAnalyzeTargetVendor, bind, load, ret.
  change (if String.eqb dirname "." then "vendor"%string
          else strings.Join [dirname; "vendor"%string] (String os.PathSeparator EmptyString))
    with (reserved_prefix dirname "vendor").
  destruct (strings.HasPrefix path (reserved_prefix dirname "vendor")),
    (skipVendorGlobal p); reflexivity.
Qed.

Lemma analyzeFile_run w fname stats p :
  analyzeFile w fname stats p
  = match ParseFile w fname with
    | inl err => Exit err (log (parser_ParseFile fname (Some err)) p)
    | inr (f, fset) =>
        Return (buildStats f fset stats) (log (parser_ParseFile fname None) p)
    end.
Proof.
  unfold analyzeFile. destruct (ParseFile w fname) as [err|[f fset]]; reflexivity.
Qed.

Lemma walkFn_file w dirname path stats p :
  analyzeDir_walkFn w dirname path (Some (os.mkFileInfo false)) None stats p
  = if candidate (skipGodepsGlobal p) (skipVendorGlobal p) dirname path
    then match ParseFile w path with
         | inl err => Exit err (log (parser_ParseFile path (Some err)) p)
         | inr (f, fset) =>
             Return (buildStats f fset stats, None) (log (parser_ParseFile path None) p)
         end
    else Return (stats, None) p.
Proof.
  unfold analyzeDir_walkFn, candidate, excluded. cbn [os.IsDir].
  unfold bind at 1. rewrite isAnalyzeTargetGodeps_run.
  destruct (skipGodepsGlobal p) eqn:Hg, (skipVendorGlobal p) eqn:Hv,
    (strings.HasPrefix path (reserved_prefix dirname "Godeps")) eqn:HG,
    (strings.HasPrefix path (reserved_prefix dirname "vendor")) eqn:HV,
    (strings.HasSuffix path ".go") eqn:HS; cbn; try reflexivity;
    unfold bind; rewrite isAnalyzeTargetVendor_run; rewrite ?Hv, ?HV, ?HS; cbn;
    try reflexivity;
    unfold analyzeFile, bind, call, ret, log_Fatal;
    destruct (ParseFile w path) as [err|[f fset]]; reflexivity.
Qed.

Lemma same_globals_refl p : same_globals p p.
Proof. repeat split. Qed.

Lemma same_globals_log c p : same_globals p (log c p).
Proof. repeat split. Qed.

Lemma same_globals_trans p1 p2 p3 :
  same_globals p1 p2 -> same_globals p2 p3 -> same_globals p1 p3.
Proof. unfold same_globals. intuition congruence. Qed.

(** A step that logs one quiet call, and then a walk. *)
Lemma walk_post_after dirname stats p p1 evs1 o :
  same_globals p p1 ->
  calls p1 = calls p ++ evs1 ->
  Forall (fun c => walk_error c = None) evs1 ->
  Forall (fun c => parse_error c = None) evs1 ->
  Forall (fun c => forall f r, c = parser_ParseFile f r ->
              candidate (skipGodepsGlobal p) (skipVendorGlobal p) dirname f = true) evs1 ->
  forall stats1, (exists new, stats1 = stats ++ new) ->
  walk_post dirname stats1 p1 o ->
  walk_post dirname stats p o.
Proof.
  intros Hg Hc Hw Hp Hcand stats1 [new1 ->] (Hg' & evs & Hcalls & Hcand' & Ho).
  split; [eapply same_globals_trans; eauto|].
  exists (evs1 ++ evs). split; [rewrite Hcalls, Hc; now rewrite app_assoc|].
  destruct Hg as (Hg1 & Hg2 & _). rewrite Hg1, Hg2 in Hcand'.
  split; [apply Forall_app; auto|].
  destruct o as [[stats' err] p'|msg p'].
  - destruct Ho as ([new ->] & Hpe & Herr).
    split; [exists (new1 ++ new); now rewrite app_assoc|].
    split; [apply Forall_app; auto|].
    destruct err as [e|].
    + destruct Herr as (evs0 & c & m & -> & Hc' & -> & H0).
      exists (evs1 ++ evs0), c, m. rewrite app_assoc. repeat split; auto.
      apply Forall_app; auto.
    + apply Forall_app; auto.
  - destruct Ho as (evs0 & f & -> & H0 & H0').
    exists (evs1 ++ evs0), f. rewrite app_assoc. repeat split; auto; apply Forall_app; auto.
Qed.

Lemma walk_post_return dirname stats p stats' :
  (exists new, stats' = stats ++ new) ->
  walk_post dirname stats p (Return (stats', None) p).
Proof.
  intros Hnew. split; [apply same_globals_refl|]. exists []. simpl.
  rewrite app_nil_r. repeat split; auto.
Qed.

Lemma walk_post_error dirname stats p c msg :
  walk_error c = Some msg ->
  walk_post dirname stats p (Return (stats, Some (Err msg)) (log c p)).
Proof.
  intros Hc. split; [apply same_globals_log|]. exists [c]. simpl.
  repeat split.
  - constructor; auto. intros f r ->. destruct r; discriminate.
  - exists []. now rewrite app_nil_r.
  - constructor; auto. destruct c as [| ? [?|] | ? [?|] |]; try discriminate; reflexivity.
  - exists [], c, msg. repeat split; auto.
Qed.

Lemma walk_post_file w dirname path stats p :
  walk_post dirname stats p
    (analyzeDir_walkFn w dirname path (Some (os.mkFileInfo false)) None stats p).
Proof.
  rewrite walkFn_file.
  destruct (candidate _ _ dirname path) eqn:Hcand.
  - destruct (ParseFile w path) as [err|[f fset]].
    + split; [apply same_globals_log|]. exists [parser_ParseFile path (Some err)].
      repeat split.
      * constructor; auto. intros f r [= <- <-]. exact Hcand.
      * exists [], path. repeat split; auto.
    + split; [apply same_globals_log|]. exists [parser_ParseFile path None].
      repeat split; try (constructor; auto).
      * intros f' r [= <- <-]. exact Hcand.
      * exists (buildStats f fset []). apply buildStats_app.
  - apply walk_post_return. exists []. now rewrite app_nil_r.
Qed.

Lemma walk_post_logged dirname stats p c o :
  walk_error c = None -> parse_error c = None ->
  (forall f r, c <> parser_ParseFile f r) ->
  walk_post dirname stats (log c p) o ->
  walk_post dirname stats p o.
Proof.
  intros Hw Hp Hc. apply (walk_post_after dirname stats p (log c p) [c]); auto.
  - apply same_globals_log.
  - constructor; auto. intros f r ->. now destruct (Hc f r).
  - exists []. now rewrite app_nil_r.
Qed.

Lemma stops_error child msg : filepath.stops child (Some (Err msg)) = true.
Proof. now destruct child. Qed.

Lemma prod_all_snd {A B : Type} (PB : B -> Prop) (a : A) (b : B) :
  prod_all A (fun _ => unit) B PB (a, b) -> PB b.
Proof.
  intros H.
  exact (match H in prod_all _ _ _ _ x return PB (snd x) with
         | pair_all _ _ _ _ _ _ _ pb => pb
         end).
Qed.

Section VisitPost.
Variable w : World.
Variable dirname : string.

Lemma loop_post path names :
  list_all (string * FileTree)
    (prod_all string (fun _ => unit) FileTree (visit_ok w dirname)) names ->
  forall stats p,
    walk_post dirname stats p
      (filepath.entries w (filepath.visit w (analyzeDir_walkFn w dirname)) path names
         stats p).
Proof.
  induction 1 as [|[name child] Hchild names Hnames IH]; intros stats p.
  - apply walk_post_return. exists []. now rewrite app_nil_r.
  - apply prod_all_snd in Hchild.
    specialize (Hchild (Join w path name) stats p).
    cbn [filepath.entries]. unfold bind at 1.
    destruct (filepath.visit w _ child (Join w path name) stats p)
      as [[stats1 err] p1|msg p1] eqn:Hrun; [|exact Hchild].
    destruct err as [e|].
    + assert (He : exists msg, e = Err msg).
      { destruct Hchild as (_ & evs & _ & _ & _ & _ & evs0 & c & msg & _ & _ & -> & _).
        now exists msg. }
      destruct He as [msg ->]. rewrite stops_error. exact Hchild.
    + simpl filepath.stops. cbv iota.
      destruct Hchild as (Hg & evs & Hcalls & Hcand & Hnew & Hpe & Hwe).
      apply (walk_post_after dirname stats p p1 evs _ Hg Hcalls Hwe Hpe Hcand stats1 Hnew).
      apply IH.
Qed.

Lemma visit_post t : visit_ok w dirname t.
Proof.
  induction t as [msg| |msg|names IH]; intros path stats p; simpl.
  - unfold bind, call.
    change (analyzeDir_walkFn w dirname path None (Some (Err msg)) stats
              (log (os_Lstat path (Some msg)) p))
      with (Return (stats, Some (Err msg)) (log (os_Lstat path (Some msg)) p)).
    now apply walk_post_error.
  - unfold bind at 1, call.
    apply (walk_post_logged dirname stats p (os_Lstat path None)); try easy.
    apply walk_post_file.
  - unfold bind, call.
    apply (walk_post_logged dirname stats p (os_Lstat path None)); try easy.
    change (analyzeDir_walkFn w dirname path (Some (os.mkFileInfo true)) (Some (Err msg))
              stats (log (readDirNames path (Some msg)) (log (os_Lstat path None) p)))
      with (Return (stats, Some (Err msg))
              (log (readDirNames path (Some msg)) (log (os_Lstat path None) p))).
    now apply walk_post_error.
  - unfold bind at 1 2 3, call.
    apply (walk_post_logged dirname stats p (os_Lstat path None)); try easy.
    apply (walk_post_logged dirname stats _ (readDirNames path None)); try easy.
    change (analyzeDir_walkFn w dirname path (Some (os.mkFileInfo true)) None stats
              (log (readDirNames path None) (log (os_Lstat path None) p)))
      with (Return (stats, @None error)
              (log (readDirNames path None) (log (os_Lstat path None) p))).
    cbv iota beta.
    apply loop_post. exact IH.
Qed.

End VisitPost.

Lemma analyzeDir_run w dirname stats p :
  analyzeDir w dirname stats p
  = match filepath.visit w (analyzeDir_walkFn w dirname) (Tree w dirname) dirname stats p with
    | Return (stats', _) p' => Return stats' p'
    | Exit msg p' => Exit msg p'
    end.
Proof.
  unfold analyzeDir, filepath.Walk, bind.
  destruct (filepath.visit _ _ _ _ _ _) as [[stats' [[|msg]|]] p'|msg p']; reflexivity.
Qed.

Lemma isDir_run w filename p :
  isDir w filename p
  = Return (match Stat w filename with Some fi => os.IsDir fi | None => false end)
      (log (os_Stat filename) p).
Proof. unfold isDir, bind, call. now destruct (Stat w filename). Qed.

Lemma analyze_range_dir w path paths stats p fi :
  Stat w path = Some fi -> os.IsDir fi = true ->
  analyze_range w (path :: paths) stats p
  = match analyzeDir w path stats (log (os_Stat path) p) with
    | Return stats' p' => analyze_range w paths stats' p'
    | Exit msg p' => Exit msg p'
    end.
Proof.
  intros HS Hdir. simpl. unfold bind at 1. rewrite isDir_run, HS, Hdir. reflexivity.
Qed.

Lemma analyze_range_file w path paths stats p :
  match Stat w path with Some fi => os.IsDir fi | None => false end = false ->
  analyze_range w (path :: paths) stats p
  = match ParseFile w path with
    | inl err =>
        Exit err (log (parser_ParseFile path (Some err)) (log (os_Stat path) p))
    | inr (f, fset) =>
        analyze_range w paths (buildStats f fset stats)
          (log (parser_ParseFile path None) (log (os_Stat path) p))
    end.
Proof.
  intros HS. simpl. unfold bind at 1. rewrite isDir_run, HS. unfold bind.
  rewrite analyzeFile_run. now destruct (ParseFile w path) as [err|[f fset]].
Qed.

Lemma framed_log {A} c p (o : Outcome A) : framed (log c p) o -> framed p o.
Proof.
  intros [Hg [evs He]]. split.
  - eapply same_globals_trans; [apply same_globals_log|exact Hg].
  - exists (c :: evs). rewrite He. simpl. now rewrite <- app_assoc.
Qed.

Lemma framed_trans {A B} p (o1 : Outcome A) (o2 : Outcome B) :
  framed p o1 -> framed (final o1) o2 -> framed p o2.
Proof.
  intros [Hg1 [evs1 He1]] [Hg2 [evs2 He2]]. split.
  - eapply same_globals_trans; eauto.
  - exists (evs1 ++ evs2). rewrite He2, He1. now rewrite app_assoc.
Qed.

Lemma analyzeDir_framed w dirname stats p : framed p (analyzeDir w dirname stats p).
Proof.
  rewrite analyzeDir_run.
  destruct (visit_post w dirname (Tree w dirname) dirname stats p) as (Hg & evs & He & _).
  destruct (filepath.visit _ _ _ _ _ _) as [[stats' err] p'|msg p']; split; eauto.
Qed.

Lemma analyzeFile_framed w fname stats p : framed p (analyzeFile w fname stats p).
Proof.
  rewrite analyzeFile_run.
  destruct (ParseFile w fname) as [err|[f fset]];
    [apply (framed_log (parser_ParseFile fname (Some err)))
    |apply (framed_log (parser_ParseFile fname None))];
    (split; [apply same_globals_refl|exists []; simpl; now rewrite app_nil_r]).
Qed.

Lemma analyze_range_framed w paths : forall stats p, framed p (analyze_range w paths stats p).
Proof.
  induction paths as [|path paths IH]; intros stats p.
  - split; [apply same_globals_refl|exists []; simpl; now rewrite app_nil_r].
  - simpl. unfold bind at 1. rewrite isDir_run. apply (framed_log (os_Stat path)).
    unfold bind.
    set (q := log (os_Stat path) p).
    destruct (match Stat w path with Some fi => os.IsDir fi | None => false end).
    + pose proof (analyzeDir_framed w path stats q) as H.
      destruct (analyzeDir w path stats q) as [stats' p'|msg p']; [|exact H].
      eapply framed_trans; [exact H|apply IH].
    + pose proof (analyzeFile_framed w path stats q) as H.
      destruct (analyzeFile w path stats q) as [stats' p'|msg p']; [|exact H].
      eapply framed_trans; [exact H|apply IH].
Qed.

(** ** Roots that are plain files *)

(** C9.  A root that is not a directory is handed to the parser as it
    is, once, whatever its name and whatever the flags; the further roots
    follow. *)
Theorem plain_file_root_is_parsed_unfiltered :
  forall w path paths stats p fi,
    Stat w path = Some fi -> os.IsDir fi = false ->
    analyze_range w (path :: paths) stats p
    = match ParseFile w path with
      | inl err =>
          Exit err (log (parser_ParseFile path (Some err)) (log (os_Stat path) p))
      | inr (f, fset) =>
          analyze_range w paths (buildStats f fset stats)
            (log (parser_ParseFile path None) (log (os_Stat path) p))
      end.
Proof.
  intros w path paths stats p fi HS Hdir. apply analyze_range_file. now rewrite HS.
Qed.

(** C9 at [notes.txt], with both flags set. *)
Lemma plain_file_root_example :
  Stat example_world "notes.txt" = Some (os.mkFileInfo false)
  /\ analyze_range example_world ["notes.txt"%string] []
       (set_skipVendorGlobal true (set_skipGodepsGlobal true start))
     = Return (example_stats "notes.txt")
         (log (parser_ParseFile "notes.txt" None)
            (log (os_Stat "notes.txt")
               (set_skipVendorGlobal true (set_skipGodepsGlobal true start)))).
Proof.
  split; [reflexivity|].
  rewrite (plain_file_root_is_parsed_unfiltered example_world "notes.txt" [] []
             (set_skipVendorGlobal true (set_skipGodepsGlobal true start))
             (os.mkFileInfo false) eq_refl eq_refl).
  reflexivity.
Defined.

(** ** The Exclusion Policy *)

Lemma candidate_spec skipGodeps skipVendor dirname path :
  candidate skipGodeps skipVendor dirname path = true ->
  (skipGodeps = true ->
   ~ exists rest, path = (reserved_prefix dirname "Godeps" ++ rest)%string)
  /\ (skipVendor = true ->
      ~ exists rest, path = (reserved_prefix dirname "vendor" ++ rest)%string)
  /\ exists front, path = (front ++ ".go")%string.
Proof.
  unfold candidate, excluded. intros H. apply andb_prop in H. destruct H as [Hex Hsuf].
  apply negb_true_iff, orb_false_elim in Hex. destruct Hex as [Hg Hv].
  repeat split.
  - intros -> Hpre. apply HasPrefix_spec in Hpre. simpl in Hg. congruence.
  - intros -> Hpre. apply HasPrefix_spec in Hpre. simpl in Hv. congruence.
  - now apply HasSuffix_spec.
Qed.

(** C7.  In a walk of [dirname], a file whose path starts with
    [dirname/Godeps] ([Godeps] when [dirname] is [.]) is left out when
    [skipGodepsGlobal] is set, whatever [skipVendorGlobal] is; likewise for
    [vendor] and [skipVendorGlobal]; a file whose path does not end in
    [.go] is left out; and every file the walk hands to the parser passes
    all three tests. *)
Theorem reserved_directories_are_excluded :
  forall w dirname stats p,
    (forall path rest,
        skipGodepsGlobal p = true ->
        path = (reserved_prefix dirname "Godeps" ++ rest)%string ->
        analyzeDir_walkFn w dirname path (Some (os.mkFileInfo false)) None stats p
        = Return (stats, None) p)
    /\ (forall path rest,
           skipVendorGlobal p = true ->
           path = (reserved_prefix dirname "vendor" ++ rest)%string ->
           analyzeDir_walkFn w dirname path (Some (os.mkFileInfo false)) None stats p
           = Return (stats, None) p)
    /\ (forall path,
           (~ exists front, path = (front ++ ".go")%string) ->
           analyzeDir_walkFn w dirname path (Some (os.mkFileInfo false)) None stats p
           = Return (stats, None) p)
    /\ exists evs,
        calls (final (analyzeDir w dirname stats p)) = calls p ++ evs
        /\ forall f r,
            In (parser_ParseFile f r) evs ->
            (skipGodepsGlobal p = true ->
             ~ exists rest, f = (reserved_prefix dirname "Godeps" ++ rest)%string)
            /\ (skipVendorGlobal p = true ->
                ~ exists rest, f = (reserved_prefix dirname "vendor" ++ rest)%string)
            /\ exists front, f = (front ++ ".go")%string.
Proof.
  intros w dirname stats p.
  assert (Hno : forall path,
             candidate (skipGodepsGlobal p) (skipVendorGlobal p) dirname path = false ->
             analyzeDir_walkFn w dirname path (Some (os.mkFileInfo false)) None stats p
             = Return (stats, None) p).
  { intros path H. now rewrite walkFn_file, H. }
  repeat split.
  - intros path rest Hskip Hpath. apply Hno. unfold candidate, excluded.
    rewrite Hskip. rewrite (proj2 (HasPrefix_spec path _)) by eauto. reflexivity.
  - intros path rest Hskip Hpath. apply Hno. unfold candidate, excluded.
    rewrite Hskip. rewrite (proj2 (HasPrefix_spec path (reserved_prefix dirname "vendor")))
      by eauto.
    now rewrite orb_true_r.
  - intros path Hsuf. apply Hno. unfold candidate.
    destruct (strings.HasSuffix path ".go") eqn:E; [|now rewrite andb_false_r].
    apply HasSuffix_spec in E. contradiction.
  - rewrite analyzeDir_run.
    destruct (visit_post w dirname (Tree w dirname) dirname stats p)
      as (_ & evs & He & Hcand & _).
    exists evs. split.
    + now destruct (filepath.visit _ _ _ _ _ _) as [[stats' err] p'|msg p'].
    + intros f r Hin. rewrite Forall_forall in Hcand.
      apply candidate_spec. apply (Hcand _ Hin f r eq_refl).
Qed.

(** C7 at [Godeps/dep.go] in a walk of [.]. *)
Lemma reserved_directories_example :
  skipGodepsGlobal (set_skipGodepsGlobal true start) = true
  /\ "Godeps/dep.go"%string = (reserved_prefix "." "Godeps" ++ "/dep.go")%string
  /\ analyzeDir_walkFn example_world "." "Godeps/dep.go" (Some (os.mkFileInfo false)) None
       [] (set_skipGodepsGlobal true start)
     = Return ([], None) (set_skipGodepsGlobal true start).
Proof.
  split; [reflexivity|]. split; [reflexivity|].
  apply (proj1 (reserved_directories_are_excluded example_world "." []
                  (set_skipGodepsGlobal true start)) "Godeps/dep.go"%string "/dep.go"%string);
    reflexivity.
Defined.

(** ** Errors of the walk *)

Lemma error_is_last {A} (Q : A -> Prop) evs0 : forall c' evs1 c evs2,
  evs0 ++ [c'] = evs1 ++ c :: evs2 -> Forall Q evs0 -> ~ Q c -> evs2 = [].
Proof.
  induction evs0 as [|a evs0 IH]; intros c' evs1 c evs2 Heq HQ Hc.
  - destruct evs1 as [|b evs1]; simpl in Heq.
    + now injection Heq as _ <-.
    + injection Heq as _ Heq. now destruct evs1.
  - destruct evs1 as [|b evs1]; simpl in Heq.
    + injection Heq as -> _. now inversion HQ.
    + injection Heq as _ Heq. inversion HQ; subst. eapply IH; eauto.
Qed.

(** *** What a walk keeps *)

Lemma bind_call {A} c (k : unit -> M A) p : bind (call c) k p = k tt (log c p).
Proof. reflexivity. Qed.

Lemma bind_Return {A B} (m : M A) (k : A -> M B) p a p' :
  m p = Return a p' -> bind m k p = k a p'.
Proof. unfold bind. now intros ->. Qed.

Lemma walkFn_dir w dirname path stats p :
  analyzeDir_walkFn w dirname path (Some (os.mkFileInfo true)) None stats p
  = Return (stats, None) p.
Proof. reflexivity. Qed.

Lemma parsed_app l1 l2 : parsed (l1 ++ l2) = parsed l1 ++ parsed l2.
Proof. apply flat_map_app. Qed.

Lemma kept_nothing w stats p e : kept w stats p (Return (stats, e) p).
Proof. exists []. simpl. now rewrite !app_nil_r. Qed.

Lemma kept_logged w stats p c o :
  parsed [c] = [] -> kept w stats (log c p) o -> kept w stats p o.
Proof.
  intros Hc. destruct o as [[stats' e] p'|msg p']; [|auto].
  intros (evs & He & Hs). exists (c :: evs). split.
  - rewrite He. simpl. now rewrite <- app_assoc.
  - change (c :: evs) with ([c] ++ evs). now rewrite parsed_app, Hc.
Qed.

Lemma kept_file w dirname path stats p :
  kept w stats p (analyzeDir_walkFn w dirname path (Some (os.mkFileInfo false)) None stats p).
Proof.
  rewrite walkFn_file. destruct (candidate _ _ dirname path); [|apply kept_nothing].
  destruct (ParseFile w path) as [err|[f fset]] eqn:E; [exact I|].
  exists [parser_ParseFile path None]. split; [reflexivity|].
  simpl. unfold measured. rewrite E, app_nil_r. apply buildStats_app.
Qed.

Section Kept.
Variable w : World.
Variable dirname : string.

Lemma entries_kept path names :
  list_all (string * FileTree)
    (prod_all string (fun _ => unit) FileTree
       (fun t => forall path stats p,
            kept w stats p (filepath.visit w (analyzeDir_walkFn w dirname) t path stats p)))
    names ->
  forall stats p,
    kept w stats p
      (filepath.entries w (filepath.visit w (analyzeDir_walkFn w dirname)) path names
         stats p).
Proof.
  induction 1 as [|[name child] Hchild names Hnames IH]; intros stats p.
  - apply kept_nothing.
  - apply prod_all_snd in Hchild. specialize (Hchild (Join w path name) stats p).
    cbn [filepath.entries]. unfold bind at 1.
    destruct (filepath.visit w _ child (Join w path name) stats p)
      as [[stats1 err] p1|msg p1]; [|exact I].
    destruct (filepath.stops child err); [exact Hchild|].
    specialize (IH stats1 p1).
    destruct (filepath.entries w _ path names stats1 p1) as [[stats2 err2] p2|msg p2];
      [|exact I].
    destruct Hchild as (evs1 & He1 & Hs1). destruct IH as (evs2 & He2 & Hs2).
    exists (evs1 ++ evs2). split.
    + rewrite He2, He1. now rewrite app_assoc.
    + rewrite Hs2, Hs1, parsed_app, flat_map_app. now rewrite app_assoc.
Qed.

Lemma visit_kept t : forall path stats p,
  kept w stats p (filepath.visit w (analyzeDir_walkFn w dirname) t path stats p).
Proof.
  induction t as [msg| |msg|names IH]; intros path stats p; cbn [filepath.visit].
  - rewrite bind_call. apply (kept_logged w stats p (os_Lstat path (Some msg))); [reflexivity|].
    apply kept_nothing.
  - rewrite bind_call. apply (kept_logged w stats p (os_Lstat path None)); [reflexivity|].
    apply kept_file.
  - rewrite !bind_call. apply (kept_logged w stats p (os_Lstat path None)); [reflexivity|].
    apply (kept_logged w stats _ (readDirNames path (Some msg))); [reflexivity|].
    apply kept_nothing.
  - rewrite !bind_call; cbv beta.
    rewrite !(bind_Return _ _ _ _ _ (walkFn_dir w dirname path _ _)).
    cbv iota beta.
    apply (kept_logged w stats p (os_Lstat path None)); [reflexivity|].
    apply (kept_logged w stats _ (readDirNames path None)); [reflexivity|].
    apply (entries_kept path names IH).
Qed.

End Kept.

(** C8, amended.  An error that [filepath.Walk] itself meets in a directory
    ([os.Lstat] fails on an entry, or a directory cannot be listed) ends the
    walk of that directory: it is the last call the walk makes.  The error
    is dropped: [analyzeDir] returns the measurements it had followed by
    those of the files parsed before the error, and [analyze] goes on with
    the next root.  A selected file on which the parser fails, be it that it
    cannot read the file, is another matter: [analyzeFile] stops the
    process. *)
Theorem walk_error_ends_the_walk_and_is_dropped :
  forall w dirname stats p,
    (exists evs,
        calls (final (analyzeDir w dirname stats p)) = calls p ++ evs
        /\ forall evs1 c evs2 msg,
            evs = evs1 ++ c :: evs2 -> walk_error c = Some msg ->
            evs2 = []
            /\ analyzeDir w dirname stats p
               = Return (stats ++ flat_map (measured w) (parsed evs1))
                   (final (analyzeDir w dirname stats p)))
    /\ (forall fi paths,
           Stat w dirname = Some fi -> os.IsDir fi = true ->
           analyze_range w (dirname :: paths) stats p
           = match analyzeDir w dirname stats (log (os_Stat dirname) p) with
             | Return stats' p' => analyze_range w paths stats' p'
             | Exit msg p' => Exit msg p'
             end)
    /\ (forall path err,
           candidate (skipGodepsGlobal p) (skipVendorGlobal p) dirname path = true ->
           ParseFile w path = inl err ->
           analyzeDir_walkFn w dirname path (Some (os.mkFileInfo false)) None stats p
           = Exit err (log (parser_ParseFile path (Some err)) p)).
Proof.
  intros w dirname stats p. split; [|split].
  - rewrite analyzeDir_run.
    destruct (visit_post w dirname (Tree w dirname) dirname stats p)
      as (_ & evs & He & _ & Ho).
    pose proof (visit_kept w dirname (Tree w dirname) dirname stats p) as Hk.
    exists evs.
    destruct (filepath.visit _ _ _ _ _ _) as [[stats' err] p'|m p']; simpl in *.
    + split; auto. intros evs1 c evs2 msg Heq Hc.
      destruct Hk as (evs' & He' & ->).
      assert (evs' = evs) by (rewrite He' in He; now apply app_inv_head in He).
      subst evs'.
      destruct Ho as (_ & _ & Herr). destruct err as [e|].
      * destruct Herr as (evs0 & c' & m & -> & _ & _ & H0).
        assert (evs2 = []).
        { apply (error_is_last _ evs0 c' evs1 c evs2 Heq H0). congruence. }
        subst evs2. split; [reflexivity|].
        apply app_inj_tail in Heq. destruct Heq as [-> ->].
        rewrite parsed_app.
        replace (parsed [c]) with (@nil string);
          [now rewrite app_nil_r|].
        destruct c as [| ? [?|] | ? [?|] |]; try discriminate; reflexivity.
      * rewrite Heq, Forall_forall in Herr.
        specialize (Herr c (in_elt c evs1 evs2)). congruence.
    + split; auto. intros evs1 c evs2 msg Heq Hc. exfalso.
      destruct Ho as (evs0 & f & -> & H0 & _).
      assert (Hall : Forall (fun c => walk_error c = None)
                       (evs0 ++ [parser_ParseFile f (Some m)])).
      { apply Forall_app. split; auto. }
      rewrite Heq, Forall_forall in Hall.
      specialize (Hall c (in_elt c evs1 evs2)). congruence.
  - intros fi paths. apply analyze_range_dir.
  - intros path err Hc Hp. now rewrite walkFn_file, Hc, Hp.
Qed.

(** C8, amended, at the directory [d], at the roots [d] and [notes.txt],
    and at [broken.go]. *)
Lemma walk_error_example :
  calls (final (analyzeDir example_world "d" [] (log (os_Stat "d") start)))
  = calls (log (os_Stat "d") start)
    ++ ([os_Lstat "d" None; readDirNames "d" None; os_Lstat "d/a.go" None;
         parser_ParseFile "d/a.go" None]
        ++ os_Lstat "d/b" (Some "permission denied"%string) :: [])
  /\ walk_error (os_Lstat "d/b" (Some "permission denied"%string))
     = Some "permission denied"%string
  /\ analyzeDir example_world "d" [] (log (os_Stat "d") start)
     = Return (example_stats "d/a.go")
         (final (analyzeDir example_world "d" [] (log (os_Stat "d") start)))
  /\ Stat example_world "d" = Some (os.mkFileInfo true)
  /\ analyze_range example_world ["d"%string; "notes.txt"%string] [] start
     = match analyzeDir example_world "d" [] (log (os_Stat "d") start) with
       | Return stats' p' => analyze_range example_world ["notes.txt"%string] stats' p'
       | Exit msg p' => Exit msg p'
       end
  /\ ParseFile example_world "broken.go" = inl "expected declaration"%string
  /\ analyzeDir_walkFn example_world "." "broken.go" (Some (os.mkFileInfo false)) None []
       start
     = Exit "expected declaration"
         (log (parser_ParseFile "broken.go" (Some "expected declaration"%string)) start).
Proof.
  split; [reflexivity|]. split; [reflexivity|].
  destruct (walk_error_ends_the_walk_and_is_dropped example_world "d" []
              (log (os_Stat "d") start)) as ((evs & He & Hlast) & _).
  assert (Hevs : evs = [os_Lstat "d" None; readDirNames "d" None; os_Lstat "d/a.go" None;
                        parser_ParseFile "d/a.go" None]
                       ++ os_Lstat "d/b" (Some "permission denied"%string) :: []).
  { apply (app_inv_head (calls (log (os_Stat "d") start))). rewrite <- He. reflexivity. }
  destruct (Hlast _ _ _ _ Hevs eq_refl) as (_ & Hrun).
  split; [exact Hrun|]. split; [reflexivity|]. split.
  - apply (proj1 (proj2 (walk_error_ends_the_walk_and_is_dropped example_world "d" [] start))
             (os.mkFileInfo true) ["notes.txt"%string]); reflexivity.
  - split; [reflexivity|].
    apply (proj2 (proj2 (walk_error_ends_the_walk_and_is_dropped example_world "." [] start)));
      reflexivity.
Defined.

(** C8 as stated fails: in the directory [d] the entry [b] cannot be
    examined; the walk stops there ([c.go] is never visited), and the
    caller gets the measurements of [a.go] as an ordinary result. *)
Lemma walk_error_returns_partial_results :
  GetStats example_world ["d"%string] false false start
  = Return (example_sorted "d/a.go")
      {| skipGodepsGlobal := false; skipVendorGlobal := false;
         statsGlobal := example_sorted "d/a.go";
         calls :=
           [ os_Stat "d"; os_Lstat "d" None; readDirNames "d" None;
             os_Lstat "d/a.go" None; parser_ParseFile "d/a.go" None;
             os_Lstat "d/b" (Some "permission denied"%string) ] |}.
Proof. reflexivity. Qed.

(** ** Sorting *)

Lemma nth_error_middle {A} (l1 : list A) a l2 :
  nth_error (l1 ++ a :: l2) (List.length l1) = Some a.
Proof. induction l1; simpl; auto. Qed.

Lemma update_middle {A} (l1 : list A) a b l2 :
  update (l1 ++ a :: l2) (List.length l1) b = l1 ++ b :: l2.
Proof. induction l1; simpl; congruence. Qed.

Lemma nth_error_middle_S {A} (l1 : list A) a b l2 :
  nth_error (l1 ++ a :: b :: l2) (S (List.length l1)) = Some b.
Proof.
  replace (l1 ++ a :: b :: l2) with ((l1 ++ [a]) ++ b :: l2) by now rewrite <- app_assoc.
  replace (S (List.length l1)) with (List.length (l1 ++ [a])) by (rewrite length_app; simpl; lia).
  apply nth_error_middle.
Qed.

Lemma update_middle_S {A} (l1 : list A) a b c l2 :
  update (l1 ++ a :: b :: l2) (S (List.length l1)) c = l1 ++ a :: c :: l2.
Proof.
  replace (l1 ++ a :: b :: l2) with ((l1 ++ [a]) ++ b :: l2) by now rewrite <- app_assoc.
  replace (S (List.length l1)) with (List.length (l1 ++ [a])) by (rewrite length_app; simpl; lia).
  rewrite update_middle. now rewrite <- app_assoc.
Qed.

Lemma Less_adjacent l1 y x l2 :
  sort.Less (l1 ++ y :: x :: l2) (S (List.length l1)) (List.length l1)
  = Some (Complexity y <=? Complexity x).
Proof.
  simpl. unfold byComplexity.Less. now rewrite nth_error_middle_S, nth_error_middle.
Qed.

Lemma Swap_adjacent l1 y x l2 :
  sort.Swap (l1 ++ y :: x :: l2) (S (List.length l1)) (List.length l1) = Some (l1 ++ x :: y :: l2).
Proof.
  simpl. unfold byComplexity.Swap. rewrite nth_error_middle_S, nth_error_middle.
  now rewrite update_middle_S, update_middle.
Qed.

Lemma insert_bubble r : forall x acc,
  sort.insert (rev r ++ x :: acc) 0 (List.length r) = Some (bubble r x acc).
Proof.
  induction r as [|y r IH]; intros x acc; [reflexivity|].
  simpl List.length. simpl rev. rewrite <- app_assoc. simpl app.
  rewrite <- (length_rev r). simpl sort.insert.
  rewrite Less_adjacent.
  destruct (Complexity y <=? Complexity x) eqn:E; simpl bubble; rewrite E.
  - rewrite Swap_adjacent, length_rev. apply IH.
  - now rewrite <- app_assoc.
Qed.

Lemma bubble_app r : forall x acc l2, bubble r x (acc ++ l2) = bubble r x acc ++ l2.
Proof.
  induction r as [|y r IH]; intros x acc l2; simpl; [reflexivity|].
  destruct (Complexity y <=? Complexity x).
  - apply (IH x (y :: acc) l2).
  - now rewrite <- !app_assoc.
Qed.

Lemma bubble_perm r : forall x acc, Permutation (rev r ++ x :: acc) (bubble r x acc).
Proof.
  induction r as [|y r IH]; intros x acc; simpl; [reflexivity|].
  destruct (Complexity y <=? Complexity x); [|reflexivity].
  rewrite <- IH, <- app_assoc. simpl.
  apply Permutation_app_head. apply perm_swap.
Qed.

Lemma desc_app l1 l2 :
  desc (l1 ++ l2) <->
  desc l1 /\ desc l2
  /\ forall a b, In a l1 -> In b l2 -> Complexity b <= Complexity a.
Proof.
  induction l1 as [|c l1 IH]; simpl.
  - intuition.
  - rewrite Forall_app, IH, !Forall_forall. split.
    + intros ((H1 & H2) & H3 & H4 & H5). repeat split; auto.
      intros a b [<-|Ha] Hb; auto.
    + intros ((H1 & H2) & H3 & H4). repeat split; auto.
Qed.

Lemma bubble_desc r : forall x acc,
  desc (rev r) -> desc acc ->
  (forall b, In b acc -> Complexity b <= Complexity x) ->
  (forall a b, In a r -> In b acc -> Complexity b <= Complexity a) ->
  desc (bubble r x acc).
Proof.
  induction r as [|y r IH]; intros x acc Hr Hacc Hx Hra; simpl.
  - split; auto. now apply Forall_forall.
  - simpl in Hr. apply desc_app in Hr. destruct Hr as (Hr & _ & Hry).
    destruct (Z.leb_spec (Complexity y) (Complexity x)) as [Hle|Hgt].
    + apply IH; auto.
      * simpl. split; auto. apply Forall_forall. intros b Hb. apply Hra; simpl; auto.
      * intros b [<-|Hb]; auto.
      * intros a b Ha [<-|Hb].
        -- apply Hry; simpl; auto. now apply -> in_rev.
        -- apply Hra; simpl; auto.
    + apply desc_app. repeat split.
      * apply desc_app. repeat split; simpl; auto.
      * now apply Forall_forall.
      * exact Hacc.
      * intros a b Ha [<-|Hb].
        -- apply in_app_or in Ha. destruct Ha as [Ha|[<-|[]]]; [|lia].
           assert (Complexity y <= Complexity a) by (apply Hry; simpl; auto). lia.
        -- apply Hra; auto. apply in_app_or in Ha. destruct Ha as [Ha|[<-|[]]]; simpl; auto.
           right. now apply in_rev.
Qed.

Lemma bubble_length r : forall x acc,
  List.length (bubble r x acc) = S (List.length r + List.length acc).
Proof.
  intros x acc. rewrite <- (Permutation_length (bubble_perm r x acc)).
  rewrite length_app, length_rev. simpl. lia.
Qed.

Lemma split_at {A} (l : list A) i x :
  nth_error l i = Some x -> l = firstn i l ++ x :: skipn (S i) l.
Proof.
  revert i. induction l as [|a l IH]; intros [|i] H; simpl in *; try discriminate.
  - now injection H as ->.
  - f_equal. now apply IH.
Qed.

(** One round of the outer loop. *)
Lemma insert_round (data : list stat) i :
  (i < List.length data)%nat -> desc (firstn i data) ->
  exists data',
    sort.insert data 0 i = Some data'
    /\ Permutation data data' /\ desc (firstn (S i) data').
Proof.
  intros Hi Hd.
  destruct (nth_error data i) as [x|] eqn:Hx;
    [|apply nth_error_None in Hx; lia].
  pose proof (split_at data i x Hx) as Hsplit.
  set (r := rev (firstn i data)). set (l2 := skipn (S i) data).
  assert (Hlen : List.length r = i).
  { unfold r. rewrite length_rev, length_firstn. lia. }
  assert (Hdata : data = rev r ++ x :: l2).
  { unfold r. now rewrite rev_involutive. }
  exists (bubble r x l2). split; [|split].
  - rewrite Hdata at 1. rewrite <- Hlen. apply insert_bubble.
  - rewrite Hdata at 1. apply bubble_perm.
  - change l2 with ([] ++ l2). rewrite bubble_app.
    replace (S i) with (List.length (bubble r x []) + 0)%nat
      by (rewrite bubble_length; simpl; lia).
    rewrite firstn_app_2. simpl. rewrite app_nil_r.
    apply bubble_desc; simpl; auto; try easy.
    unfold r. now rewrite rev_involutive.
Qed.

Lemma insertionSort_rounds k : forall (data : list stat) i,
  (i + k = List.length data)%nat -> desc (firstn i data) ->
  exists data',
    fold_left
      (fun data i => match data with
                     | Some data => sort.insert data 0 i
                     | None => None
                     end)
      (seq i k) (Some data) = Some data'
    /\ Permutation data data' /\ desc data'.
Proof.
  induction k as [|k IH]; intros data i Hlen Hd.
  - exists data. simpl. repeat split; auto.
    replace i with (List.length data) in Hd by lia. now rewrite firstn_all in Hd.
  - simpl. destruct (insert_round data i) as (data1 & Hins & Hperm & Hd1); auto; [lia|].
    rewrite Hins.
    destruct (IH data1 (S i)) as (data' & Hfold & Hperm' & Hd'); auto.
    + rewrite <- (Permutation_length Hperm). lia.
    + exists data'. repeat split; auto. now rewrite Hperm.
Qed.

Lemma insertion_sorted_spec s :
  Permutation s (insertion_sorted s) /\ desc (insertion_sorted s).
Proof.
  unfold insertion_sorted, sort.insertionSort.
  change (sort.Len s) with (len s). unfold len. rewrite Nat2Z.id.
  destruct s as [|a s]; [simpl; auto|].
  simpl List.length. simpl Nat.sub. rewrite Nat.sub_0_r. simpl Nat.add.
  unfold byComplexity.t.
  destruct (insertionSort_rounds (List.length s) (a :: s) 1 eq_refl
              (conj (Forall_nil _) I)) as (data' & -> & Hp & Hd).
  now split.
Qed.

Lemma desc_nth l : forall i j a b,
  desc l -> (i < j)%nat -> nth_error l i = Some a -> nth_error l j = Some b ->
  Complexity b <= Complexity a.
Proof.
  induction l as [|c l IH]; intros [|i] [|j] a b Hd Hij Ha Hb; simpl in *;
    try discriminate; try lia.
  - injection Ha as <-. destruct Hd as [Hall _].
    rewrite Forall_forall in Hall. apply Hall. eapply nth_error_In; eauto.
  - destruct Hd as [_ Hd]. apply (IH i j); auto. lia.
Qed.

Lemma insertion_sorted_sorts : sorts insertion_sorted.
Proof.
  intros s. destruct (insertion_sorted_spec s) as [Hp Hd]. split; auto.
  intros i j Hij. simpl. unfold byComplexity.Less.
  destruct (nth_error (insertion_sorted s) j) as [b|] eqn:Hb; [|discriminate].
  destruct (nth_error (insertion_sorted s) i) as [a|] eqn:Ha; [|discriminate].
  intros _. f_equal. apply Z.leb_le. eapply desc_nth; eauto.
Qed.


(** ** The cache *)

Lemma getStats_hit w paths skipGodeps skipVendor p :
  statsGlobal p <> [] ->
  skipGodepsGlobal p = skipGodeps -> skipVendorGlobal p = skipVendor ->
  getStats w paths skipGodeps skipVendor p
  = Return (sort_Sort w (statsGlobal p)) (set_statsGlobal (sort_Sort w (statsGlobal p)) p).
Proof.
  intros Hs <- <-. unfold getStats, bind, load. cbn.
  destruct (statsGlobal p) eqn:E; [congruence|]. cbn.
  rewrite !Bool.eqb_reflx. cbn. rewrite E. reflexivity.
Qed.

Lemma getStats_miss w paths skipGodeps skipVendor p :
  statsGlobal p = [] \/ skipGodepsGlobal p <> skipGodeps \/ skipVendorGlobal p <> skipVendor ->
  getStats w paths skipGodeps skipVendor p = rebuild w paths skipGodeps skipVendor p.
Proof.
  intros H. unfold getStats, rebuild, bind, load. cbn.
  assert (Hc : is_nil (statsGlobal p)
               || negb (Bool.eqb (skipGodepsGlobal p) skipGodeps)
               || negb (Bool.eqb (skipVendorGlobal p) skipVendor) = true).
  { destruct H as [->|[H|H]]; [reflexivity| |].
    - destruct (Bool.eqb (skipGodepsGlobal p) skipGodeps) eqn:E.
      + apply Bool.eqb_prop in E. contradiction.
      + cbn. now rewrite orb_true_r.
    - destruct (Bool.eqb (skipVendorGlobal p) skipVendor) eqn:E.
      + apply Bool.eqb_prop in E. contradiction.
      + cbn. now rewrite !orb_true_r. }
  rewrite Hc. cbn. unfold bind. cbn.
  destruct (analyze w paths _) as [stats p'|msg p']; reflexivity.
Qed.

(** ** The analysis does not read the cache *)

Lemma walkFn_ignores_cache w dirname path info err stats p s :
  analyzeDir_walkFn w dirname path info err stats (set_statsGlobal s p)
  = with_cache s (analyzeDir_walkFn w dirname path info err stats p).
Proof.
  destruct err as [e|]; [reflexivity|].
  destruct info as [[[|]]|]; try reflexivity.
  rewrite !walkFn_file. cbn [set_statsGlobal skipGodepsGlobal skipVendorGlobal].
  destruct (candidate _ _ dirname path); [|reflexivity].
  destruct (ParseFile w path) as [e|[f fset]]; reflexivity.
Qed.

Section IgnoresCache.
Variable w : World.
Variable dirname : string.
Variable s : list stat.

Lemma loop_ignores_cache path names :
  list_all (string * FileTree)
    (prod_all string (fun _ => unit) FileTree
       (fun t => forall path stats p,
            filepath.visit w (analyzeDir_walkFn w dirname) t path stats
              (set_statsGlobal s p)
            = with_cache s
                (filepath.visit w (analyzeDir_walkFn w dirname) t path stats p)))
    names ->
  forall stats p,
    filepath.entries w (filepath.visit w (analyzeDir_walkFn w dirname)) path names
      stats (set_statsGlobal s p)
    = with_cache s
        (filepath.entries w (filepath.visit w (analyzeDir_walkFn w dirname)) path names
           stats p).
Proof.
  induction 1 as [|[name child] Hchild names Hnames IH]; intros stats p; [reflexivity|].
  apply prod_all_snd in Hchild. cbn [filepath.entries]. unfold bind at 1 2.
  rewrite Hchild.
  destruct (filepath.visit w _ child (Join w path name) stats p)
    as [[stats1 err] p1|msg p1]; [|reflexivity].
  cbn [with_cache]. destruct (filepath.stops child err); [reflexivity|apply IH].
Qed.

Lemma visit_ignores_cache t : forall path stats p,
  filepath.visit w (analyzeDir_walkFn w dirname) t path stats (set_statsGlobal s p)
  = with_cache s (filepath.visit w (analyzeDir_walkFn w dirname) t path stats p).
Proof.
  induction t as [msg| |msg|names IH]; intros path stats p; cbn [filepath.visit].
  - reflexivity.
  - rewrite !bind_call.
    apply (walkFn_ignores_cache w dirname path _ _ stats (log (os_Lstat path None) p) s).
  - reflexivity.
  - rewrite !bind_call; cbv beta.
    rewrite !(bind_Return _ _ _ _ _ (walkFn_dir w dirname path stats _)).
    cbv iota beta.
    apply (loop_ignores_cache path names IH stats
             (log (readDirNames path None) (log (os_Lstat path None) p))).
Qed.

End IgnoresCache.

Lemma analyze_range_ignores_cache w s paths : forall stats p,
  analyze_range w paths stats (set_statsGlobal s p)
  = with_cache s (analyze_range w paths stats p).
Proof.
  induction paths as [|path paths IH]; intros stats p; [reflexivity|].
  simpl. unfold bind at 1 3. rewrite !isDir_run.
  change (log (os_Stat path) (set_statsGlobal s p))
    with (set_statsGlobal s (log (os_Stat path) p)).
  set (q := log (os_Stat path) p).
  destruct (match Stat w path with Some fi => os.IsDir fi | None => false end); unfold bind.
  - rewrite !analyzeDir_run, visit_ignores_cache.
    destruct (filepath.visit w _ (Tree w path) path stats q) as [[stats1 err] p1|msg p1];
      [apply IH|reflexivity].
  - rewrite !analyzeFile_run.
    destruct (ParseFile w path) as [err|[f fset]]; [reflexivity|].
    change (log (parser_ParseFile path None) (set_statsGlobal s q))
      with (set_statsGlobal s (log (parser_ParseFile path None) q)).
    apply IH.
Qed.

Lemma rebuild_ignores_cache w paths skipGodeps skipVendor p s :
  rebuild w paths skipGodeps skipVendor (set_statsGlobal s p)
  = match rebuild w paths skipGodeps skipVendor p with
    | Return stats p' => Return stats p'
    | Exit msg p' => Exit msg (set_statsGlobal s p')
    end.
Proof.
  unfold rebuild, analyze.
  change (set_skipVendorGlobal skipVendor
            (set_skipGodepsGlobal skipGodeps (set_statsGlobal s p)))
    with (set_statsGlobal s
            (set_skipVendorGlobal skipVendor (set_skipGodepsGlobal skipGodeps p))).
  rewrite analyze_range_ignores_cache.
  destruct (analyze_range w paths [] _) as [stats p'|msg p']; reflexivity.
Qed.

(** ** The Aggregator *)

(** C2.  With a non-empty cache built for the same flag pair, [getStats]
    returns the cache, sorted once more, and makes no call to the file
    system or the parser, whatever [paths] is.  With an empty cache or a
    different flag pair it rebuilds: it stores the flags, analyses every
    root from an empty result and caches the sorted outcome, which does not
    depend on the old cache.  [GetStats] is [getStats], and [Average]
    averages its result. *)
Theorem getStats_serves_or_rebuilds_the_cache :
  forall w paths skipGodeps skipVendor p,
    (statsGlobal p <> [] ->
     skipGodepsGlobal p = skipGodeps -> skipVendorGlobal p = skipVendor ->
     getStats w paths skipGodeps skipVendor p
     = Return (sort_Sort w (statsGlobal p))
         (set_statsGlobal (sort_Sort w (statsGlobal p)) p))
    /\ (statsGlobal p = [] \/ skipGodepsGlobal p <> skipGodeps
        \/ skipVendorGlobal p <> skipVendor ->
        getStats w paths skipGodeps skipVendor p
        = rebuild w paths skipGodeps skipVendor p)
    /\ (forall cache,
           rebuild w paths skipGodeps skipVendor (set_statsGlobal cache p)
           = match rebuild w paths skipGodeps skipVendor p with
             | Return stats p' => Return stats p'
             | Exit msg p' => Exit msg (set_statsGlobal cache p')
             end)
    /\ GetStats w paths skipGodeps skipVendor p = getStats w paths skipGodeps skipVendor p
    /\ Average w paths skipGodeps skipVendor p
       = match getStats w paths skipGodeps skipVendor p with
         | Return stats p' => Return (average stats) p'
         | Exit msg p' => Exit msg p'
         end.
Proof.
  intros w paths skipGodeps skipVendor p. repeat split.
  - apply getStats_hit.
  - apply getStats_miss.
  - intros cache. apply rebuild_ignores_cache.
Qed.

(** C2 with a cached result, asked for a file that does not parse. *)
Lemma getStats_serves_the_cache_example :
  statsGlobal (set_statsGlobal (example_stats "main.go") start) <> []
  /\ getStats example_world ["broken.go"%string] false false
       (set_statsGlobal (example_stats "main.go") start)
     = Return (sort_Sort example_world (example_stats "main.go"))
         (set_statsGlobal (sort_Sort example_world (example_stats "main.go"))
            (set_statsGlobal (example_stats "main.go") start)).
Proof.
  split; [discriminate|].
  apply (proj1 (getStats_serves_or_rebuilds_the_cache example_world ["broken.go"%string]
                  false false (set_statsGlobal (example_stats "main.go") start)));
    [discriminate|reflexivity|reflexivity].
Defined.

Lemma getStats_Return w paths skipGodeps skipVendor p stats p1 :
  getStats w paths skipGodeps skipVendor p = Return stats p1 ->
  (exists s, stats = sort_Sort w s)
  /\ statsGlobal p1 = stats
  /\ skipGodepsGlobal p1 = skipGodeps /\ skipVendorGlobal p1 = skipVendor.
Proof.
  intros Hrun.
  destruct (statsGlobal p) as [|s0 cache] eqn:Hs.
  - rewrite getStats_miss in Hrun by auto. unfold rebuild in Hrun.
    pose proof (analyze_range_framed w paths []
                  (set_skipVendorGlobal skipVendor (set_skipGodepsGlobal skipGodeps p)))
      as [(Hg & Hv & _) _].
    unfold analyze in Hrun.
    destruct (analyze_range w paths [] _) as [stats' p'|msg p']; [|discriminate].
    injection Hrun as <- <-. simpl in *. eauto.
  - destruct (Bool.bool_dec (skipGodepsGlobal p) skipGodeps) as [Hg|Hg];
      [destruct (Bool.bool_dec (skipVendorGlobal p) skipVendor) as [Hv|Hv]|].
    + rewrite getStats_hit in Hrun by (auto; congruence).
      injection Hrun as <- <-. simpl. eauto.
    + rewrite getStats_miss in Hrun by auto. unfold rebuild in Hrun.
      pose proof (analyze_range_framed w paths []
                    (set_skipVendorGlobal skipVendor (set_skipGodepsGlobal skipGodeps p)))
        as [(Hg' & Hv' & _) _].
      unfold analyze in Hrun.
      destruct (analyze_range w paths [] _) as [stats' p'|msg p']; [|discriminate].
      injection Hrun as <- <-. simpl in *. eauto.
    + rewrite getStats_miss in Hrun by auto. unfold rebuild in Hrun.
      pose proof (analyze_range_framed w paths []
                    (set_skipVendorGlobal skipVendor (set_skipGodepsGlobal skipGodeps p)))
        as [(Hg' & Hv' & _) _].
      unfold analyze in Hrun.
      destruct (analyze_range w paths [] _) as [stats' p'|msg p']; [|discriminate].
      injection Hrun as <- <-. simpl in *. eauto.
Qed.



(** C10.  A call that returns no measurement leaves an empty cache under
    the requested flags, and every later call with these flags rebuilds;
    an analysis that finds no function ends in this state. *)
Theorem empty_result_is_rebuilt :
  forall w paths skipGodeps skipVendor p,
    (forall p1,
        getStats w paths skipGodeps skipVendor p = Return [] p1 ->
        statsGlobal p1 = []
        /\ skipGodepsGlobal p1 = skipGodeps /\ skipVendorGlobal p1 = skipVendor
        /\ forall paths',
            getStats w paths' skipGodeps skipVendor p1
            = rebuild w paths' skipGodeps skipVendor p1)
    /\ (forall p',
           sorts (sort_Sort w) ->
           analyze w paths
             (set_skipVendorGlobal skipVendor (set_skipGodepsGlobal skipGodeps p))
           = Return [] p' ->
           rebuild w paths skipGodeps skipVendor p = Return [] (set_statsGlobal [] p')).
Proof.
  intros w paths skipGodeps skipVendor p. split.
  - intros p1 Hrun. apply getStats_Return in Hrun.
    destruct Hrun as (_ & Hs & Hg & Hv). repeat split; auto.
    intros paths'. apply getStats_miss. auto.
  - intros p' Hsort Hrun. unfold rebuild. rewrite Hrun.
    destruct (Hsort []) as [Hperm _]. apply Permutation_nil in Hperm.
    now rewrite Hperm.
Qed.

(** C10 at the empty directory. *)
Lemma empty_result_is_rebuilt_example :
  getStats example_world ["empty"%string] false false start
  = Return []
      (log (readDirNames "empty" None)
         (log (os_Lstat "empty" None) (log (os_Stat "empty") start)))
  /\ getStats example_world ["empty"%string] false false
       (log (readDirNames "empty" None)
          (log (os_Lstat "empty" None) (log (os_Stat "empty") start)))
     = rebuild example_world ["empty"%string] false false
         (log (readDirNames "empty" None)
            (log (os_Lstat "empty" None) (log (os_Stat "empty") start))).
Proof.
  split; [reflexivity|].
  apply (proj1 (empty_result_is_rebuilt example_world ["empty"%string] false false start)).
  reflexivity.
Defined.

(** ** Further properties of the Scorer and the Unit Extractor *)

Lemma counted_preorder n :
  counted (nodes n)
  = counted [n] + fold_right (fun c k => counted (nodes c) + k) 0 (ast.children n).
Proof.
  rewrite nodes_preorder. change (n :: ?l) with ([n] ++ l). rewrite counted_app.
  f_equal. induction (ast.children n) as [|c l IH]; simpl; [reflexivity|].
  now rewrite counted_app, IH.
Qed.

Lemma counted_stmts l1 l2 :
  fold_right (fun c k => counted (nodes c) + k) 0 (map ast.Node_Stmt (l1 ++ l2))
  = fold_right (fun c k => counted (nodes c) + k) 0 (map ast.Node_Stmt l1)
    + fold_right (fun c k => counted (nodes c) + k) 0 (map ast.Node_Stmt l2).
Proof. induction l1 as [|s l1 IH]; simpl; [reflexivity|]. rewrite IH. lia. Qed.

Lemma counted_body name type body :
  counted (nodes_of (func name type body))
  = 1 + counted (signature_nodes (func name type body))
    + fold_right (fun c k => counted (nodes c) + k) 0 (map ast.Node_Stmt body).
Proof.
  rewrite counted_nodes_of. f_equal. unfold body_nodes. cbn [ast.Body func Walk.opt].
  change (Walk.BlockStmt record ?b []) with (nodes (ast.of_BlockStmt b)).
  rewrite counted_preorder. cbn [ast.children ast.of_BlockStmt ast.Stmt_children].
  reflexivity.
Qed.

(** X1.  A chain [a && b || c] adds 2 to the score, whatever its operands
    add.  The visitor leaves the walk of the chain as it leaves the walks of
    [a], [b] and [c] one after the other, begun with a counter two higher;
    and a function with the statement [a && b || c] in its body scores 2
    more ([int] additions) than the function with the three statements [a],
    [b], [c] in its place. *)
Theorem logical_chain_adds_two X Y Z :
  (forall v,
      Walk.Walk complexityVisitor.Visit
        (ast.Node_Expr (ast.BinaryExpr (ast.BinaryExpr X token.LAND Y) token.LOR Z)) v
      = Walk.Walk complexityVisitor.Visit (ast.Node_Expr Z)
          (Walk.Walk complexityVisitor.Visit (ast.Node_Expr Y)
             (Walk.Walk complexityVisitor.Visit (ast.Node_Expr X)
                (complexityVisitor.incr (complexityVisitor.incr v)))))
  /\ forall name type before after,
      complexity
        (func name type
           (before
            ++ [ast.ExprStmt (ast.BinaryExpr (ast.BinaryExpr X token.LAND Y) token.LOR Z)]
            ++ after))
      = int.add
          (int.add
             (complexity
                (func name type
                   (before ++ [ast.ExprStmt X; ast.ExprStmt Y; ast.ExprStmt Z] ++ after)))
             1)
          1.
Proof.
  split.
  - intros v. reflexivity.
  - intros name type before after.
    rewrite !complexity_wrap, !wrap_succ. f_equal.
    rewrite !counted_body, !counted_stmts.
    change (counted (signature_nodes (func name type ?b)))
      with (counted (signature_nodes (func name type []))).
    cbn [map fold_right].
    rewrite !(counted_preorder (ast.Node_Stmt (ast.ExprStmt _))).
    cbn [ast.children ast.Stmt_children fold_right].
    rewrite (counted_preorder (ast.Node_Expr (ast.BinaryExpr _ token.LOR Z))).
    cbn [ast.children ast.Expr_children fold_right].
    rewrite (counted_preorder (ast.Node_Expr (ast.BinaryExpr X token.LAND Y))).
    cbn [ast.children ast.Expr_children fold_right].
    change (counted [ast.Node_Expr (ast.BinaryExpr (ast.BinaryExpr X token.LAND Y) token.LOR Z)])
      with 1.
    change (counted [ast.Node_Expr (ast.BinaryExpr X token.LAND Y)]) with 1.
    change (counted [ast.Node_Stmt (ast.ExprStmt ?e)]) with 0.
    lia.
Qed.

Lemma counted_plain_ifs conds :
  fold_right (fun c k => counted (nodes c) + k) 0 (map ast.Node_Stmt (map plain_if conds))
  = len conds.
Proof.
  unfold len. induction conds as [|c conds IH]; [reflexivity|].
  cbn [map fold_right List.length]. rewrite IH.
  change (counted (nodes (ast.Node_Stmt (plain_if c)))) with 1. lia.
Qed.

(** X2.  A function whose body is [n] independent [if] statements, and
    nothing else, scores [1 + n]. *)
Theorem independent_ifs_score conds :
  len conds < int.MaxInt ->
  complexity (func "f" no_params (map plain_if conds)) = 1 + len conds.
Proof.
  intros Hfit. rewrite complexity_wrap, counted_nodes_of.
  change (counted (signature_nodes (func "f" no_params (map plain_if conds)))) with 0.
  unfold body_nodes. cbn [ast.Body func Walk.opt].
  change (Walk.BlockStmt record ?b []) with (nodes (ast.of_BlockStmt b)).
  rewrite counted_preorder. cbn [ast.children ast.of_BlockStmt ast.Stmt_children].
  rewrite counted_plain_ifs.
  change (counted [ast.Node_Stmt (ast.Stmt_Block (ast.mkBlockStmt (map plain_if conds)))])
    with 0.
  assert (0 <= len conds) by (unfold len; lia).
  assert (int.MinInt < 0) by reflexivity.
  apply wrap_small. lia.
Qed.

Lemma independent_ifs_example :
  len ["a"%string; "b"%string; "c"%string] < int.MaxInt
  /\ complexity (func "f" no_params (map plain_if ["a"%string; "b"%string; "c"%string]))
     = 1 + len ["a"%string; "b"%string; "c"%string].
Proof.
  split; [reflexivity|]. apply independent_ifs_score. reflexivity.
Defined.

(** X3.  [buildStats] keeps the measurements it is given and adds one per
    function declaration of the file, in the order of the declarations;
    other declarations add nothing. *)
Theorem buildStats_follows_declarations f fset stats :
  buildStats f fset stats
  = stats
    ++ flat_map
         (fun decl =>
            match decl with
            | ast.Decl_Func fn =>
                [ {| PkgName := ast.Name (ast.File_Name f);
                     FuncName := funcName fn;
                     Complexity := complexity fn;
                     Pos := token.Position_of fset (ast.FuncDecl_Pos fn) |} ]
            | _ => []
            end)
         (ast.Decls f).
Proof.
  unfold buildStats. generalize (ast.Decls f) as decls. intros decls. revert stats.
  induction decls as [|d decls IH]; intros stats; simpl.
  - now rewrite app_nil_r.
  - rewrite IH. destruct d; simpl; auto. now rewrite <- app_assoc.
Qed.

(** X4.  The analysis leaves the package-level variables as they are and
    only adds calls to the log, whether it returns or stops the process. *)
Theorem analyze_keeps_the_variables w paths p :
  skipGodepsGlobal (final (analyze w paths p)) = skipGodepsGlobal p
  /\ skipVendorGlobal (final (analyze w paths p)) = skipVendorGlobal p
  /\ statsGlobal (final (analyze w paths p)) = statsGlobal p
  /\ exists evs, calls (final (analyze w paths p)) = calls p ++ evs.
Proof.
  destruct (analyze_range_framed w paths [] p) as ((Hg & Hv & Hs) & He).
  unfold analyze. auto.
Qed.

(** X5.  [insertionSort], run through the [Len], [Less] and [Swap] of
    [byComplexity], never indexes out of range and leaves a rearrangement
    of the slice in descending order of complexity. *)
Theorem insertionSort_byComplexity s :
  exists s',
    sort.insertionSort s 0 (Z.to_nat (sort.Len s)) = Some s'
    /\ Permutation s s' /\ descending s'.
Proof.
  unfold sort.insertionSort. change (sort.Len s) with (len s). unfold len.
  rewrite Nat2Z.id. destruct s as [|a s].
  - exists []. repeat split; auto. intros [|i] a b Ha; discriminate.
  - simpl List.length. simpl Nat.sub. rewrite Nat.sub_0_r. simpl Nat.add.
    unfold byComplexity.t.
    destruct (insertionSort_rounds (List.length s) (a :: s) 1 eq_refl
                (conj (Forall_nil _) I)) as (data' & -> & Hp & Hd).
    exists data'. split; [reflexivity|]. split; [exact Hp|].
    intros i x y Hx Hy. eapply desc_nth; eauto.
Qed.

(** X6.  [ast.Walk] presents a subtree to the recording visitor in
    pre-order: the node, then the subtree of each of its children, in the
    order of its fields. *)
Theorem Walk_presents_the_subtree_in_preorder n :
  Walk.Walk record n []
  = n :: flat_map (fun child => Walk.Walk record child []) (ast.children n).
Proof. apply nodes_preorder. Qed.

(** ** Further properties of the Path Walker *)

(** *** The measurements a run begins with *)

Lemma walkFn_onto w dirname path info err stats p :
  analyzeDir_walkFn w dirname path info err stats p
  = onto stats (analyzeDir_walkFn w dirname path info err [] p).
Proof.
  destruct err as [e|]; [simpl; now rewrite app_nil_r|].
  destruct info as [[[|]]|]; try (simpl; now rewrite ?app_nil_r).
  rewrite !walkFn_file.
  destruct (candidate _ _ dirname path); [|simpl; now rewrite app_nil_r].
  destruct (ParseFile w path) as [e|[f fset]]; [reflexivity|].
  simpl. now rewrite (buildStats_app f fset stats).
Qed.

Lemma onto_onto {E} s1 s2 (o : Outcome (list stat * E)) :
  onto s1 (onto s2 o) = onto (s1 ++ s2) o.
Proof. destruct o as [[new e] p|msg p]; simpl; [now rewrite app_assoc|reflexivity]. Qed.

Lemma extended_extended s1 s2 o : extended s1 (extended s2 o) = extended (s1 ++ s2) o.
Proof. destruct o as [new p|msg p]; simpl; [now rewrite app_assoc|reflexivity]. Qed.

Section Onto.
Variable w : World.
Variable dirname : string.

Lemma entries_onto path names :
  list_all (string * FileTree)
    (prod_all string (fun _ => unit) FileTree
       (fun t => forall path stats p,
            filepath.visit w (analyzeDir_walkFn w dirname) t path stats p
            = onto stats (filepath.visit w (analyzeDir_walkFn w dirname) t path [] p)))
    names ->
  forall stats p,
    filepath.entries w (filepath.visit w (analyzeDir_walkFn w dirname)) path names stats p
    = onto stats
        (filepath.entries w (filepath.visit w (analyzeDir_walkFn w dirname)) path names [] p).
Proof.
  induction 1 as [|[name child] Hchild names Hnames IH]; intros stats p.
  - simpl. now rewrite app_nil_r.
  - apply prod_all_snd in Hchild. cbn [filepath.entries]. unfold bind at 1 2.
    rewrite Hchild.
    destruct (filepath.visit w _ child (Join w path name) [] p)
      as [[new err] p1|msg p1]; [|reflexivity].
    cbn [onto]. destruct (filepath.stops child err); [reflexivity|].
    rewrite IH, (IH new). now rewrite onto_onto.
Qed.

Lemma visit_onto t : forall path stats p,
  filepath.visit w (analyzeDir_walkFn w dirname) t path stats p
  = onto stats (filepath.visit w (analyzeDir_walkFn w dirname) t path [] p).
Proof.
  induction t as [msg| |msg|names IH]; intros path stats p; cbn [filepath.visit].
  - rewrite !bind_call. apply walkFn_onto.
  - rewrite !bind_call. apply walkFn_onto.
  - rewrite !bind_call. apply walkFn_onto.
  - rewrite !bind_call; cbv beta.
    rewrite !(bind_Return _ _ _ _ _ (walkFn_dir w dirname path _ _)).
    cbv iota beta.
    apply (entries_onto path names IH).
Qed.

End Onto.

Lemma analyzeDir_extended w dirname stats p :
  analyzeDir w dirname stats p = extended stats (analyzeDir w dirname [] p).
Proof.
  rewrite !analyzeDir_run, visit_onto.
  now destruct (filepath.visit w _ (Tree w dirname) dirname [] p) as [[new err] p1|msg p1].
Qed.

Lemma analyzeFile_extended w fname stats p :
  analyzeFile w fname stats p = extended stats (analyzeFile w fname [] p).
Proof.
  rewrite !analyzeFile_run.
  destruct (ParseFile w fname) as [err|[f fset]]; [reflexivity|].
  simpl. now rewrite (buildStats_app f fset stats).
Qed.

Lemma analyze_range_extended w paths : forall stats p,
  analyze_range w paths stats p = extended stats (analyze_range w paths [] p).
Proof.
  induction paths as [|path paths IH]; intros stats p.
  - simpl. now rewrite app_nil_r.
  - simpl. unfold bind at 1 3. rewrite !isDir_run.
    set (q := log (os_Stat path) p).
    destruct (match Stat w path with Some fi => os.IsDir fi | None => false end); unfold bind.
    + rewrite (analyzeDir_extended w path stats).
      destruct (analyzeDir w path [] q) as [new p1|msg p1]; [|reflexivity].
      simpl. rewrite IH, (IH new). now rewrite extended_extended.
    + rewrite (analyzeFile_extended w path stats).
      destruct (analyzeFile w path [] q) as [new p1|msg p1]; [|reflexivity].
      simpl. rewrite IH, (IH new). now rewrite extended_extended.
Qed.

Lemma analyze_range_app w paths1 paths2 : forall stats p,
  analyze_range w (paths1 ++ paths2) stats p
  = match analyze_range w paths1 stats p with
    | Return stats1 p1 => analyze_range w paths2 stats1 p1
    | Exit msg p1 => Exit msg p1
    end.
Proof.
  induction paths1 as [|path paths1 IH]; intros stats p; [reflexivity|].
  simpl. unfold bind at 1 3. rewrite !isDir_run.
  destruct (match Stat w path with Some fi => os.IsDir fi | None => false end); unfold bind.
  - destruct (analyzeDir w path stats _) as [new p1|msg p1]; [apply IH|reflexivity].
  - destruct (analyzeFile w path stats _) as [new p1|msg p1]; [apply IH|reflexivity].
Qed.

(** X7.  The analysis of a list of roots is the analysis of its first part
    followed by the analysis of the rest, and the measurements of the rest do
    not depend on those gathered before: the result is the two results one
    after the other.  A root listed twice is measured twice. *)
Theorem analyze_concatenates_the_roots w paths1 paths2 p :
  analyze w (paths1 ++ paths2) p
  = match analyze w paths1 p with
    | Return stats1 p1 =>
        match analyze w paths2 p1 with
        | Return stats2 p2 => Return (stats1 ++ stats2) p2
        | Exit msg p2 => Exit msg p2
        end
    | Exit msg p1 => Exit msg p1
    end.
Proof.
  unfold analyze. rewrite analyze_range_app.
  destruct (analyze_range w paths1 [] p) as [stats1 p1|msg p1]; [|reflexivity].
  now rewrite analyze_range_extended.
Qed.

(** *** A walk in which nothing fails *)

Section Files.
Variable w : World.
Variable dirname : string.

Lemma entries_files path names :
  list_all (string * FileTree)
    (prod_all string (fun _ => unit) FileTree (quiet_visit w dirname)) names ->
  readable (Dir names) = true ->
  forall stats p,
    forallb (parses w)
      (targets (skipGodepsGlobal p) (skipVendorGlobal p) dirname
         (files w (Dir names) path)) = true ->
    exists p',
      filepath.entries w (filepath.visit w (analyzeDir_walkFn w dirname)) path names stats p
      = Return (stats
                ++ flat_map (measured w)
                     (targets (skipGodepsGlobal p) (skipVendorGlobal p) dirname
                        (files w (Dir names) path)), None) p'
      /\ skipGodepsGlobal p' = skipGodepsGlobal p
      /\ skipVendorGlobal p' = skipVendorGlobal p.
Proof.
  induction 1 as [|[name child] Hchild names Hnames IH]; intros Hr stats p Hp.
  - exists p. simpl. rewrite app_nil_r. auto.
  - apply prod_all_snd in Hchild. cbn [readable forallb] in Hr.
    apply andb_prop in Hr. destruct Hr as [Hr1 Hr2].
    cbn [files flat_map] in Hp |- *. unfold targets in *.
    rewrite filter_app, forallb_app in Hp.
    apply andb_prop in Hp. destruct Hp as [Hp1 Hp2].
    destruct (Hchild Hr1 (Join w path name) stats p Hp1) as (p1 & Hrun & Hg1 & Hv1).
    cbn [filepath.entries]. unfold bind at 1. rewrite Hrun. cbn [filepath.stops].
    rewrite <- Hg1, <- Hv1 in Hp2 |- *.
    edestruct (IH Hr2) as (p2 & Hrun2 & Hg2 & Hv2); [exact Hp2|].
    exists p2. rewrite Hrun2. rewrite filter_app, flat_map_app, app_assoc. auto.
Qed.

Lemma visit_files t : quiet_visit w dirname t.
Proof.
  induction t as [msg| |msg|names IH]; intros Hr path stats p Hp; try discriminate.
  - cbn [filepath.visit]. rewrite bind_call, walkFn_file.
    cbn [log skipGodepsGlobal skipVendorGlobal].
    unfold targets, measured, parses in *. cbn [files filter] in *.
    destruct (candidate (skipGodepsGlobal p) (skipVendorGlobal p) dirname path).
    + cbn [forallb flat_map] in *.
      destruct (ParseFile w path) as [err|[f fset]]; [discriminate|].
      eexists. rewrite app_nil_r, (buildStats_app f fset stats). split; [reflexivity|]. auto.
    + eexists. simpl. rewrite app_nil_r. split; [reflexivity|]. auto.
  - cbn [filepath.visit]. rewrite !bind_call; cbv beta.
    rewrite !(bind_Return _ _ _ _ _ (walkFn_dir w dirname path _ _)).
    cbv iota beta.
    destruct (entries_files path names IH Hr stats
                (log (readDirNames path None) (log (os_Lstat path None) p)) Hp)
      as (p' & Hrun & Hg & Hv).
    exists p'. split; [exact Hrun|]. split; [exact Hg|exact Hv].
Qed.

End Files.

(** X8.  When no entry below [dirname] fails to be examined and every file
    the Exclusion Policy lets through parses, [analyzeDir] returns the
    measurements it was given followed by those of each such file, in the
    order of the walk: the entries of a directory in the order of their
    names, a directory's content before its next sibling. *)
Theorem analyzeDir_measures_every_candidate w dirname stats p :
  readable (Tree w dirname) = true ->
  forallb (parses w)
    (filter (candidate (skipGodepsGlobal p) (skipVendorGlobal p) dirname)
       (files w (Tree w dirname) dirname)) = true ->
  exists p',
    analyzeDir w dirname stats p
    = Return (stats
              ++ flat_map (measured w)
                   (filter (candidate (skipGodepsGlobal p) (skipVendorGlobal p) dirname)
                      (files w (Tree w dirname) dirname))) p'.
Proof.
  intros Hr Hp. rewrite analyzeDir_run.
  destruct (visit_files w dirname (Tree w dirname) Hr dirname stats p Hp) as (p' & -> & _).
  now exists p'.
Qed.

(** X8 at the directory [.] with [skipVendorGlobal] set: [Godeps/dep.go]
    and [main.go] are measured, in this order. *)
Lemma analyzeDir_measures_example :
  readable (Tree example_world ".") = true
  /\ analyzeDir example_world "." [] (set_skipVendorGlobal true start)
     = Return (example_stats "Godeps/dep.go" ++ example_stats "main.go")
         (final (analyzeDir example_world "." [] (set_skipVendorGlobal true start))).
Proof.
  split; [reflexivity|].
  destruct (analyzeDir_measures_every_candidate example_world "." []
              (set_skipVendorGlobal true start) eq_refl eq_refl) as (p' & H).
  rewrite H. reflexivity.
Defined.

(** *** Roots that [os.Stat] misjudges *)

Lemma HasPrefix_longer s prefix :
  (String.length s < String.length prefix)%nat -> strings.HasPrefix s prefix = false.
Proof.
  intros H. unfold strings.HasPrefix.
  destruct (Nat.leb_spec (String.length prefix) (String.length s)); [lia|reflexivity].
Qed.

Lemma root_not_reserved path reserved :
  (1 < String.length reserved)%nat ->
  strings.HasPrefix path (reserved_prefix path reserved) = false.
Proof.
  intros H. unfold reserved_prefix. destruct (String.eqb_spec path ".") as [->|_].
  - apply HasPrefix_longer. simpl. lia.
  - apply HasPrefix_longer. rewrite !length_append. simpl. lia.
Qed.

(** The root of a walk is under no reserved directory of its own. *)
Lemma candidate_root skipGodeps skipVendor path :
  candidate skipGodeps skipVendor path path = strings.HasSuffix path ".go".
Proof.
  unfold candidate, excluded.
  rewrite !root_not_reserved by (simpl; lia). now rewrite !andb_false_r.
Qed.

(** X9.  [isDir] has the word of [os.Stat] alone.  A root [os.Stat] cannot
    examine counts as a plain file and goes to the parser.  A root [os.Stat]
    calls a directory and [os.Lstat] does not (a symbolic link to a
    directory) is walked but not entered: it is met as one file, parsed if
    its own name ends in [.go] and passed over otherwise. *)
Theorem isDir_trusts_os_Stat :
  forall w path paths stats p,
    (Stat w path = None ->
     analyze_range w (path :: paths) stats p
     = match ParseFile w path with
       | inl err =>
           Exit err (log (parser_ParseFile path (Some err)) (log (os_Stat path) p))
       | inr (f, fset) =>
           analyze_range w paths (buildStats f fset stats)
             (log (parser_ParseFile path None) (log (os_Stat path) p))
       end)
    /\ (forall fi,
           Stat w path = Some fi -> os.IsDir fi = true -> Tree w path = File ->
           analyze_range w (path :: paths) stats p
           = if strings.HasSuffix path ".go" then
               match ParseFile w path with
               | inl err =>
                   Exit err (log (parser_ParseFile path (Some err))
                               (log (os_Lstat path None) (log (os_Stat path) p)))
               | inr (f, fset) =>
                   analyze_range w paths (buildStats f fset stats)
                     (log (parser_ParseFile path None)
                        (log (os_Lstat path None) (log (os_Stat path) p)))
               end
             else
               analyze_range w paths stats
                 (log (os_Lstat path None) (log (os_Stat path) p))).
Proof.
  intros w path paths stats p. split.
  - intros HS. apply analyze_range_file. now rewrite HS.
  - intros fi HS Hdir Ht.
    rewrite (analyze_range_dir w path paths stats p fi HS Hdir).
    rewrite analyzeDir_run, Ht. cbn [filepath.visit]. rewrite bind_call, walkFn_file.
    rewrite candidate_root.
    destruct (strings.HasSuffix path ".go"); [|reflexivity].
    now destruct (ParseFile w path) as [err|[f fset]].
Qed.

(** X9 at [broken.go], which [os.Stat] does not find, and at [link]. *)
Lemma isDir_trusts_os_Stat_example :
  Stat example_world "broken.go" = None
  /\ analyze_range example_world ["broken.go"%string; "main.go"%string] [] start
     = Exit "expected declaration"
         (log (parser_ParseFile "broken.go" (Some "expected declaration"%string))
            (log (os_Stat "broken.go") start))
  /\ Stat example_link_world "link" = Some (os.mkFileInfo true)
  /\ Tree example_link_world "link" = File
  /\ analyze_range example_link_world ["link"%string] [] start
     = Return [] (log (os_Lstat "link" None) (log (os_Stat "link") start)).
Proof.
  split; [reflexivity|]. split.
  - rewrite (proj1 (isDir_trusts_os_Stat example_world "broken.go" ["main.go"%string] []
                      start) eq_refl).
    reflexivity.
  - split; [reflexivity|]. split; [reflexivity|].
    rewrite (proj2 (isDir_trusts_os_Stat example_link_world "link" [] [] start)
               (os.mkFileInfo true) eq_refl eq_refl eq_refl).
    reflexivity.
Defined.

(** *** What stops the process *)

Lemma parse_post_after {A B} p (o1 : Outcome A) (o2 : Outcome B) evs1 :
  calls (final o1) = calls p ++ evs1 ->
  Forall (fun c => parse_error c = None) evs1 ->
  parse_post (final o1) o2 -> parse_post p o2.
Proof.
  intros He1 H1 (evs2 & He2 & H2). exists (evs1 ++ evs2).
  split; [rewrite He2, He1; now rewrite app_assoc|].
  destruct o2 as [b p2|msg p2].
  - apply Forall_app; auto.
  - destruct H2 as (evs0 & f & -> & H0). exists (evs1 ++ evs0), f.
    rewrite app_assoc. split; auto. apply Forall_app; auto.
Qed.

Lemma analyzeDir_parse_post w dirname stats p : parse_post p (analyzeDir w dirname stats p).
Proof.
  rewrite analyzeDir_run.
  destruct (visit_post w dirname (Tree w dirname) dirname stats p) as (_ & evs & He & _ & Ho).
  exists evs.
  destruct (filepath.visit _ _ _ _ _ _) as [[stats' err] p'|msg p']; simpl in *.
  - split; auto. now destruct Ho as (_ & Hp & _).
  - split; auto. destruct Ho as (evs0 & f & -> & _ & H0). eauto.
Qed.

Lemma analyzeFile_parse_post w fname stats p : parse_post p (analyzeFile w fname stats p).
Proof.
  rewrite analyzeFile_run. destruct (ParseFile w fname) as [err|[f fset]].
  - exists [parser_ParseFile fname (Some err)]. split; [reflexivity|].
    exists [], fname. auto.
  - exists [parser_ParseFile fname None]. split; [reflexivity|]. repeat constructor.
Qed.

Lemma analyze_range_parse_post w paths : forall stats p,
  parse_post p (analyze_range w paths stats p).
Proof.
  induction paths as [|path paths IH]; intros stats p.
  - exists []. simpl. rewrite app_nil_r. auto.
  - simpl. unfold bind at 1. rewrite isDir_run.
    apply (parse_post_after p (Return tt (log (os_Stat path) p)) _ [os_Stat path]);
      [reflexivity|repeat constructor|]. cbn [final].
    set (q := log (os_Stat path) p). unfold bind.
    destruct (match Stat w path with Some fi => os.IsDir fi | None => false end).
    + pose proof (analyzeDir_parse_post w path stats q) as H.
      destruct (analyzeDir w path stats q) as [stats' p'|msg p'] eqn:E; [|exact H].
      destruct H as (evs & He & H).
      apply (parse_post_after q (Return stats' p') _ evs He H). apply IH.
    + pose proof (analyzeFile_parse_post w path stats q) as H.
      destruct (analyzeFile w path stats q) as [stats' p'|msg p'] eqn:E; [|exact H].
      destruct H as (evs & He & H).
      apply (parse_post_after q (Return stats' p') _ evs He H). apply IH.
Qed.

(** X10.  Only a call of [parser.ParseFile] that gives an error stops the
    process (the parser reads the file itself: the error is that the file
    cannot be read or that it does not parse), and the first such call does:
    when the analysis ends in [log.Fatal], the refused file is the last call
    it made and the parser's error is the message; when it returns, every
    call of the parser gave a file.  Whatever [os.Stat], [os.Lstat] and the
    listing of a directory report, it is not their call that ends the
    process. *)
Theorem only_a_failed_parse_stops_the_analysis w paths p :
  exists evs,
    calls (final (analyze w paths p)) = calls p ++ evs
    /\ match analyze w paths p with
       | Return _ _ => Forall (fun c => parse_error c = None) evs
       | Exit msg _ =>
           exists evs0 f,
             evs = evs0 ++ [parser_ParseFile f (Some msg)]
             /\ Forall (fun c => parse_error c = None) evs0
       end.
Proof. exact (analyze_range_parse_post w paths [] p). Qed.

(** ** Further properties of the Aggregator *)

(** *** Measurements of equal complexity *)

Lemma scoring_app c l1 l2 : scoring c (l1 ++ l2) = scoring c l1 ++ scoring c l2.
Proof. apply filter_app. Qed.

Lemma scoring_above c l :
  (forall a, In a l -> c < Complexity a) -> scoring c l = [].
Proof.
  induction l as [|a l IH]; intros H; simpl; [reflexivity|].
  destruct (Z.eqb_spec (Complexity a) c) as [E|E].
  - specialize (H a (or_introl eq_refl)). lia.
  - apply IH. intros b Hb. apply H. now right.
Qed.

(** The inner loop carries [x] past every measurement of its complexity. *)
Lemma bubble_scoring c r : forall x acc,
  desc (rev r) ->
  scoring c (bubble r x acc)
  = scoring c [x] ++ scoring c (rev r) ++ scoring c acc.
Proof.
  induction r as [|y r IH]; intros x acc Hd;
    [simpl; now destruct (Complexity x =? c)|].
  simpl bubble. simpl rev in *.
  apply desc_app in Hd. destruct Hd as (Hr & _ & Hry).
  destruct (Z.leb_spec (Complexity y) (Complexity x)) as [Hle|Hgt].
  - rewrite IH by exact Hr. rewrite scoring_app.
    change (y :: acc) with ([y] ++ acc). rewrite scoring_app.
    now rewrite <- !app_assoc.
  - rewrite !scoring_app. change (x :: acc) with ([x] ++ acc). rewrite scoring_app.
    destruct (Z.eqb_spec (Complexity x) c) as [E|E].
    + rewrite (scoring_above c (rev r)), (scoring_above c [y]); [reflexivity| |].
      * intros a [<-|[]]. lia.
      * intros a Ha. specialize (Hry a y Ha (or_introl eq_refl)). lia.
    + unfold scoring at 3 5. simpl. destruct (Z.eqb_spec (Complexity x) c); [contradiction|].
      simpl. now rewrite <- app_assoc.
Qed.

Lemma place_desc sorted x : desc sorted -> desc (place sorted x).
Proof.
  intros Hd. unfold place. apply bubble_desc; simpl; auto; try easy.
  now rewrite rev_involutive.
Qed.

Lemma place_scoring c sorted x :
  desc sorted -> scoring c (place sorted x) = scoring c [x] ++ scoring c sorted.
Proof.
  intros Hd. unfold place. rewrite bubble_scoring by now rewrite rev_involutive.
  rewrite rev_involutive. simpl (scoring c []). now rewrite app_nil_r.
Qed.

Lemma fold_place_scoring c rest : forall sorted,
  desc sorted ->
  desc (fold_left place rest sorted)
  /\ scoring c (fold_left place rest sorted) = rev (scoring c rest) ++ scoring c sorted.
Proof.
  induction rest as [|x rest IH]; intros sorted Hd; simpl; [auto|].
  destruct (IH (place sorted x) (place_desc sorted x Hd)) as [Hd' Hs].
  split; [exact Hd'|]. rewrite Hs, place_scoring by exact Hd.
  unfold scoring. simpl. destruct (Complexity x =? c); simpl; [|reflexivity].
  now rewrite <- app_assoc.
Qed.

(** The rounds of the outer loop, by lists. *)
Lemma insertionSort_fold rest : forall sorted : list stat,
  fold_left
    (fun data i => match data with
                   | Some data => sort.insert data 0 i
                   | None => None
                   end)
    (seq (List.length sorted) (List.length rest)) (Some (sorted ++ rest))
  = Some (fold_left place rest sorted).
Proof.
  induction rest as [|x rest IH]; intros sorted; simpl.
  - now rewrite app_nil_r.
  - rewrite <- (rev_involutive sorted) at 2. rewrite <- (length_rev sorted) at 2.
    rewrite insert_bubble. change rest with ([] ++ rest) at 2. rewrite bubble_app.
    fold (place sorted x).
    replace (S (List.length sorted)) with (List.length (place sorted x)).
    + apply IH.
    + unfold place. rewrite bubble_length, length_rev. simpl. lia.
Qed.

Lemma insertionSort_place (s : byComplexity.t) :
  sort.insertionSort s 0 (Z.to_nat (sort.Len s)) = Some (fold_left place s []).
Proof.
  unfold sort.insertionSort.
  change (sort.Len s) with (len s). unfold len. rewrite Nat2Z.id.
  destruct s as [|a s]; [reflexivity|].
  simpl List.length. simpl Nat.sub. rewrite Nat.sub_0_r. simpl Nat.add.
  unfold byComplexity.t.
  pose proof (insertionSort_fold s [a]) as H. cbn [List.length app] in H.
  rewrite H. reflexivity.
Qed.

(** X11.  [Less] of [byComplexity] holds between equal values, so
    [insertionSort] moves a measurement in front of those of the same
    complexity that came before it: after the sort, the measurements of each
    complexity stand in the reverse of the order they had.  Sorting a sorted
    slice once more turns every run of equal values around. *)
Theorem insertionSort_reverses_ties (s : byComplexity.t) :
  exists s',
    sort.insertionSort s 0 (Z.to_nat (sort.Len s)) = Some s'
    /\ forall c,
        filter (fun x => Complexity x =? c) s'
        = rev (filter (fun x => Complexity x =? c) s).
Proof.
  exists (fold_left place s []). split; [apply insertionSort_place|].
  intros c. destruct (fold_place_scoring c s [] I) as [_ H]. unfold scoring in H.
  rewrite H. simpl. now rewrite app_nil_r.
Qed.

(** *** [Swap] *)

Lemma length_update {A} (s : list A) : forall i x, List.length (update s i x) = List.length s.
Proof. induction s as [|a s IH]; intros [|i] x; simpl; auto. Qed.

Lemma nth_error_update {A} (s : list A) : forall i x k,
  nth_error (update s i x) k
  = if (k =? i)%nat && (i <? List.length s)%nat then Some x else nth_error s k.
Proof.
  induction s as [|a s IH]; intros [|i] x [|k]; simpl; auto.
  now destruct (k =? i)%nat.
Qed.

Lemma nth_error_swapped {A} (s : list A) i j si sj k :
  (i < List.length s)%nat -> (j < List.length s)%nat ->
  nth_error (update (update s i sj) j si) k
  = if (k =? j)%nat then Some si else if (k =? i)%nat then Some sj else nth_error s k.
Proof.
  intros Hi Hj. rewrite !nth_error_update, length_update.
  destruct (Nat.ltb_spec j (List.length s)); [|lia].
  destruct (Nat.ltb_spec i (List.length s)); [|lia].
  now rewrite !andb_true_r.
Qed.

(** X12.  Within the slice, [Swap] exchanges the elements at [i] and [j]
    and leaves the length and every other element alone; swapping the same
    two again gives the slice back.  With an index out of range it panics. *)
Theorem byComplexity_Swap_exchanges s i j :
  ((i < List.length s)%nat -> (j < List.length s)%nat ->
   exists s',
     byComplexity.Swap s i j = Some s'
     /\ byComplexity.Len s' = byComplexity.Len s
     /\ nth_error s' i = nth_error s j
     /\ nth_error s' j = nth_error s i
     /\ (forall k, k <> i -> k <> j -> nth_error s' k = nth_error s k)
     /\ byComplexity.Swap s' i j = Some s)
  /\ ((List.length s <= i)%nat \/ (List.length s <= j)%nat ->
      byComplexity.Swap s i j = None).
Proof.
  split.
  - intros Hi Hj. unfold byComplexity.Swap.
    destruct (nth_error s i) as [si|] eqn:Ei; [|apply nth_error_None in Ei; lia].
    destruct (nth_error s j) as [sj|] eqn:Ej; [|apply nth_error_None in Ej; lia].
    pose proof (fun k => nth_error_swapped s i j si sj k Hi Hj) as Hnth.
    assert (Hi' : nth_error (update (update s i sj) j si) i = Some sj).
    { rewrite Hnth. destruct (Nat.eqb_spec i j) as [->|_]; [congruence|].
      now rewrite Nat.eqb_refl. }
    assert (Hj' : nth_error (update (update s i sj) j si) j = Some si)
      by now rewrite Hnth, Nat.eqb_refl.
    eexists. split; [reflexivity|]. split; [|split; [|split; [|split]]].
    + unfold byComplexity.Len, len. now rewrite !length_update.
    + exact Hi'.
    + exact Hj'.
    + intros k Hki Hkj. rewrite Hnth.
      destruct (Nat.eqb_spec k j); [contradiction|].
      now destruct (Nat.eqb_spec k i).
    + rewrite Hi', Hj'. f_equal. apply nth_error_ext. intros k.
      rewrite nth_error_swapped by now rewrite !length_update.
      rewrite Hnth.
      destruct (Nat.eqb_spec k j) as [->|_]; [congruence|].
      destruct (Nat.eqb_spec k i) as [->|_]; congruence.
  - intros H. unfold byComplexity.Swap.
    destruct H as [H|H]; apply nth_error_None in H; rewrite H; [reflexivity|].
    now destruct (nth_error s i).
Qed.

(** X12 at the two measurements of the example file. *)
Lemma byComplexity_Swap_example :
  byComplexity.Swap (example_stats "main.go") 0 1 = Some (example_sorted "main.go")
  /\ byComplexity.Swap (example_sorted "main.go") 0 1 = Some (example_stats "main.go")
  /\ byComplexity.Swap (example_stats "main.go") 0 2 = None.
Proof.
  destruct (proj1 (byComplexity_Swap_exchanges (example_stats "main.go") 0 1))
    as (s' & Hs & _ & _ & _ & _ & Hback); [simpl; lia|simpl; lia|].
  assert (Hs' : s' = example_sorted "main.go").
  { cbv in Hs. injection Hs as <-. reflexivity. }
  subst s'. split; [exact Hs|]. split; [exact Hback|].
  apply (proj2 (byComplexity_Swap_exchanges (example_stats "main.go") 0 2)).
  right. simpl. lia.
Defined.

(** *** The average and the order *)

Lemma sum_Complexity_Permutation s1 s2 :
  Permutation s1 s2 -> sum_Complexity s1 = sum_Complexity s2.
Proof. induction 1; simpl; lia. Qed.

Lemma average_wrap stats :
  average stats
  = float64.div (float64.of_int (int.wrap (sum_Complexity stats)))
      (float64.of_int (len stats)).
Proof. unfold average. change 0 with (int.wrap 0) at 1. now rewrite total_wrap. Qed.

Lemma average_Permutation s1 s2 : Permutation s1 s2 -> average s1 = average s2.
Proof.
  intros H. rewrite !average_wrap, (sum_Complexity_Permutation s1 s2 H).
  unfold len. now rewrite (Permutation_length H).
Qed.

(** X13.  The average does not depend on the order of the measurements,
    overflow of the sum included.  So [Average] returns the average of the
    measurements as the analysis gathered them, or as the cache held them:
    the sort [getStats] runs in between, whichever way it settles ties, does
    not change it. *)
Theorem Average_does_not_depend_on_the_order :
  (forall s1 s2, Permutation s1 s2 -> average s1 = average s2)
  /\ forall w paths skipGodeps skipVendor p,
      sorts (sort_Sort w) ->
      (forall stats p',
          statsGlobal p = [] \/ skipGodepsGlobal p <> skipGodeps
          \/ skipVendorGlobal p <> skipVendor ->
          analyze w paths
            (set_skipVendorGlobal skipVendor (set_skipGodepsGlobal skipGodeps p))
          = Return stats p' ->
          Average w paths skipGodeps skipVendor p
          = Return (average stats) (set_statsGlobal (sort_Sort w stats) p'))
      /\ (statsGlobal p <> [] ->
          skipGodepsGlobal p = skipGodeps -> skipVendorGlobal p = skipVendor ->
          Average w paths skipGodeps skipVendor p
          = Return (average (statsGlobal p))
              (set_statsGlobal (sort_Sort w (statsGlobal p)) p)).
Proof.
  split; [exact average_Permutation|].
  intros w paths skipGodeps skipVendor p Hsort. split.
  - intros stats p' Hmiss Hrun. unfold Average, bind.
    rewrite getStats_miss by exact Hmiss. unfold rebuild. rewrite Hrun.
    unfold ret. f_equal. symmetry. apply average_Permutation, Hsort.
  - intros Hs Hg Hv. unfold Average, bind.
    rewrite getStats_hit by assumption.
    unfold ret. f_equal. symmetry. apply average_Permutation, Hsort.
Qed.

(** X13 at the file [main.go], from a fresh process. *)
Lemma Average_order_example :
  Permutation (example_stats "main.go") (example_sorted "main.go")
  /\ average (example_stats "main.go") = average (example_sorted "main.go")
  /\ sorts (sort_Sort example_world)
  /\ Average example_world ["main.go"%string] false false start
     = Return (average (example_stats "main.go"))
         (set_statsGlobal (example_sorted "main.go")
            (log (parser_ParseFile "main.go" None) (log (os_Stat "main.go") start))).
Proof.
  split; [apply perm_swap|].
  split; [apply (proj1 Average_does_not_depend_on_the_order); apply perm_swap|].
  split; [exact insertion_sorted_sorts|].
  apply (proj1 (proj2 Average_does_not_depend_on_the_order example_world
                  ["main.go"%string] false false start insertion_sorted_sorts)).
  - left. reflexivity.
  - reflexivity.
Defined.

(** *** Two calls in a row *)

(** X14.  After a call that returned measurements, a call with the same
    flags returns those measurements, sorted once more, for whatever roots
    it is asked about, and calls neither the file system nor the parser. *)
Theorem a_second_call_is_served_from_the_first :
  forall w paths skipGodeps skipVendor p stats p1,
    getStats w paths skipGodeps skipVendor p = Return stats p1 ->
    stats <> [] ->
    forall paths',
      getStats w paths' skipGodeps skipVendor p1
      = Return (sort_Sort w stats) (set_statsGlobal (sort_Sort w stats) p1).
Proof.
  intros w paths skipGodeps skipVendor p stats p1 Hrun Hne paths'.
  apply getStats_Return in Hrun. destruct Hrun as (_ & Hs & Hg & Hv).
  rewrite getStats_hit by (rewrite ?Hs; assumption). now rewrite Hs.
Qed.

(** X14: asked about [main.go] and then about the directory [d]. *)
Lemma a_second_call_example :
  getStats example_world ["main.go"%string] false false start
  = Return (example_sorted "main.go")
      (set_statsGlobal (example_sorted "main.go")
         (log (parser_ParseFile "main.go" None) (log (os_Stat "main.go") start)))
  /\ example_sorted "main.go" <> []
  /\ getStats example_world ["d"%string] false false
       (set_statsGlobal (example_sorted "main.go")
          (log (parser_ParseFile "main.go" None) (log (os_Stat "main.go") start)))
     = Return (example_sorted "main.go")
         (set_statsGlobal (example_sorted "main.go")
            (log (parser_ParseFile "main.go" None) (log (os_Stat "main.go") start))).
Proof.
  split; [reflexivity|]. split; [discriminate|].
  apply (a_second_call_is_served_from_the_first example_world ["main.go"%string]
           false false start (example_sorted "main.go") _ eq_refl).
  discriminate.
Defined.

(** ** The printed line *)

Lemma string_of_uint_no_space d : has_space (NilEmpty.string_of_uint d) = false.
Proof. induction d; simpl; auto. Qed.

Lemma Itoa_no_space i : has_space (strconv.Itoa i) = false.
Proof.
  unfold strconv.Itoa. destruct (Z.to_int i); simpl; apply string_of_uint_no_space.
Qed.

(** The digits tell the number. *)
Lemma Itoa_inj i j : strconv.Itoa i = strconv.Itoa j -> i = j.
Proof.
  unfold strconv.Itoa. intros H. apply to_int_inj.
  pose proof (NilEmpty.isi (Z.to_int i)) as Hi. rewrite H, NilEmpty.isi in Hi.
  now injection Hi.
Qed.

(** A field without a space ends at the first space. *)
Lemma field_split a : forall b r1 r2,
  has_space a = false -> has_space b = false ->
  (a ++ " " ++ r1)%string = (b ++ " " ++ r2)%string -> a = b /\ r1 = r2.
Proof.
  induction a as [|c a IH]; intros [|c' b] r1 r2 Ha Hb H; simpl in *.
  - injection H as H. auto.
  - injection H as <- _. discriminate.
  - injection H as -> _. discriminate.
  - injection H as <- H. apply orb_false_elim in Ha, Hb.
    destruct (IH b r1 r2 (proj2 Ha) (proj2 Hb) H) as [-> ->]. auto.
Qed.

(** X15.  The line [String] prints for a measurement can be read back:
    when the package and function names hold no space, two measurements
    with the same line have the same complexity, package name and function
    name, and their positions print alike. *)
Theorem String_fields_can_be_read_back s1 s2 :
  has_space (PkgName s1) = false -> has_space (FuncName s1) = false ->
  has_space (PkgName s2) = false -> has_space (FuncName s2) = false ->
  stat_String s1 = stat_String s2 ->
  Complexity s1 = Complexity s2 /\ PkgName s1 = PkgName s2
  /\ FuncName s1 = FuncName s2
  /\ token.Position_String (Pos s1) = token.Position_String (Pos s2).
Proof.
  unfold stat_String. intros Hp1 Hf1 Hp2 Hf2 H.
  apply field_split in H; try apply Itoa_no_space. destruct H as [Hc H].
  apply field_split in H; auto. destruct H as [Hp H].
  apply field_split in H; auto. destruct H as [Hf H].
  apply Itoa_inj in Hc. auto.
Qed.

(** X15 at the measurement of [f] in [main.go], which prints
    [5 p f main.go:4:1], against the same measurement with another offset. *)
Lemma String_fields_example :
  stat_String (example_stat_f "main.go") = "5 p f main.go:4:1"%string
  /\ stat_String (example_stat_f "main.go")
     = stat_String {| PkgName := "p"; FuncName := "f"; Complexity := 5;
                      Pos := token.mkPosition "main.go" 0 4 1 |}
  /\ Complexity (example_stat_f "main.go") = 5.
Proof.
  split; [reflexivity|]. split; [reflexivity|].
  destruct (String_fields_can_be_read_back (example_stat_f "main.go")
              {| PkgName := "p"; FuncName := "f"; Complexity := 5;
                 Pos := token.mkPosition "main.go" 0 4 1 |}
              eq_refl eq_refl eq_refl eq_refl eq_refl) as (Hc & _).
  exact Hc.
Defined.

(** ** Further properties of the Exclusion Policy *)

Lemma HasPrefix_append a : forall b c,
  strings.HasPrefix (a ++ b) (a ++ c) = strings.HasPrefix b c.
Proof.
  unfold strings.HasPrefix.
  induction a as [|x a IH]; intros b c; [reflexivity|].
  simpl. rewrite Ascii.eqb_refl. apply IH.
Qed.

(** X16.  The Exclusion Policy knows the reserved directories at the top
    of the walked root only.  In a walk of [dirname] (other than [.]) a
    [.go] file whose path below [dirname] does not begin with [/Godeps] or
    [/vendor] is parsed whatever the flags are, a file in [sub/vendor]
    included. *)
Theorem reserved_directories_below_the_top_are_analysed :
  forall w dirname rest stats p,
    dirname <> "."%string ->
    strings.HasPrefix rest "/Godeps" = false ->
    strings.HasPrefix rest "/vendor" = false ->
    strings.HasSuffix (dirname ++ rest) ".go" = true ->
    analyzeDir_walkFn w dirname (dirname ++ rest) (Some (os.mkFileInfo false)) None stats p
    = match ParseFile w (dirname ++ rest) with
      | inl err => Exit err (log (parser_ParseFile (dirname ++ rest) (Some err)) p)
      | inr (f, fset) =>
          Return (buildStats f fset stats, None)
            (log (parser_ParseFile (dirname ++ rest) None) p)
      end.
Proof.
  intros w dirname rest stats p Hd Hg Hv Hs. rewrite walkFn_file.
  unfold candidate, excluded, reserved_prefix.
  destruct (String.eqb_spec dirname ".") as [E|_]; [contradiction|].
  rewrite !HasPrefix_append, Hs.
  change (strings.HasPrefix rest ("/" ++ "Godeps")) with (strings.HasPrefix rest "/Godeps").
  change (strings.HasPrefix rest ("/" ++ "vendor")) with (strings.HasPrefix rest "/vendor").
  rewrite Hg, Hv, !andb_false_r. reflexivity.
Qed.

(** X16 at [d/sub/vendor/v.go] in a walk of [d], with both flags set. *)
Lemma reserved_below_the_top_example :
  analyzeDir_walkFn example_world "d" "d/sub/vendor/v.go" (Some (os.mkFileInfo false)) None []
    (set_skipVendorGlobal true (set_skipGodepsGlobal true start))
  = Return (example_stats "d/sub/vendor/v.go", None)
      (log (parser_ParseFile "d/sub/vendor/v.go" None)
         (set_skipVendorGlobal true (set_skipGodepsGlobal true start))).
Proof.
  apply (reserved_directories_below_the_top_are_analysed example_world "d"
           "/sub/vendor/v.go" []
           (set_skipVendorGlobal true (set_skipGodepsGlobal true start)));
    [discriminate|reflexivity|reflexivity|reflexivity].
Defined.
